(** * bloomberg.js: the namespace registrar and the readiness notifier

    A shallow embedding of [Base.prototype.namespace] and
    [Base.prototype.ready] (src/javascripts/vendor/bloomberg.js) over an
    explicit JavaScript object store.

    Boundaries of the embedding.
    - Objects are records of own properties with a prototype link; property
      reads go through the prototype chain, writes create or update an own
      property.  Accessor properties, non-writable or non-enumerable
      properties and the members of the built-in prototypes
      ([Object.prototype], [Function.prototype], the wrappers of the
      primitives) are not represented.
    - Backbone's [extend] and jQuery's [on]/[trigger] are libraries the file
      calls; they are described by [backbone_extend], [jq_on] and
      [jq_trigger] below.
    - Functions are objects of the store too; the body of a user function is
      opaque.  Invoking a readiness callback is recorded in the log together
      with the store it observes. *)

From Stdlib Require Import ZArith List Lia Bool Ascii String.
From stdpp Require Import base tactics option list strings gmap.

Open Scope string_scope.
Open Scope list_scope.

(** ** Values and the object store *)

Abbreviation cbid := nat.
Abbreviation loc := nat.

Inductive value : Type :=
  | VUndef                     (* undefined *)
  | VNull                      (* null *)
  | VBool (b : bool)
  | VNum (n : Z)
  | VStr (s : string)
  | VRef (l : loc).            (* an object of the store, functions included *)

#[global] Instance value_eq_dec : EqDecision value.
Proof. solve_decision. Defined.

(** What calling an object runs, for the objects that are functions. *)
Inductive code : Type :=
  | CExtend                    (* Backbone's class-level [extend] *)
  | CClass (parent : loc)      (* a constructor made by [extend] *)
  | CUser (f : nat).           (* a user function, opaque *)

Record obj : Type := Obj {
  o_proto : option loc;
  o_props : gmap string value;
  o_code : option code
}.

Definition plain (members : gmap string value) : obj := Obj None members None.
Definition func (c : code) : obj := Obj None ∅ (Some c).

(** The store is the sequence of the objects allocated so far: a location
    is an index, allocation appends.  A prototype is fixed when its object is
    created, so it is always an older object (a smaller index). *)
Abbreviation heap := (list obj).

Definition alloc (h : heap) (o : obj) : heap * loc := (h ++ [o], length h).

(** [find_from n h l k]: the property [k] as seen from [l], looking at [l]
    and then up its prototype chain.  The chain strictly decreases, so
    [S l] steps always suffice. *)
Fixpoint find_from (n : nat) (h : heap) (l : loc) (k : string) : option value :=
  match n with
  | O => None
  | S n' =>
      match h !! l with
      | None => None
      | Some o =>
          match o_props o !! k with
          | Some v => Some v
          | None =>
              match o_proto o with
              | Some p => if decide (p < l) then find_from n' h p k else None
              | None => None
              end
          end
      end
  end.

Definition find (h : heap) (l : loc) (k : string) : option value :=
  find_from (S l) h l k.

(** The read [l[k]]: [undefined] when no object of the chain has [k]. *)
Definition get (h : heap) (l : loc) (k : string) : value :=
  default VUndef (find h l k).

(** [k in l]: own or inherited. *)
Definition has (h : heap) (l : loc) (k : string) : bool :=
  bool_decide (is_Some (find h l k)).

(** The prototype chain of [l], [l] first. *)
Fixpoint chain_from (n : nat) (h : heap) (l : loc) : list loc :=
  match n with
  | O => []
  | S n' =>
      match h !! l with
      | None => []
      | Some o =>
          l :: match o_proto o with
               | Some p => if decide (p < l) then chain_from n' h p else []
               | None => []
               end
      end
  end.

Definition chain (h : heap) (l : loc) : list loc := chain_from (S l) h l.

(** The keys a [for (key in l)] loop visits: own keys, then the prototypes'.
    The order among them is the map's; the loops below write one key per
    visit, so the order shows only if such a write redirects the loop's own
    target. *)
Fixpoint forin_from (n : nat) (h : heap) (l : loc) : list string :=
  match n with
  | O => []
  | S n' =>
      match h !! l with
      | None => []
      | Some o =>
          (map_to_list (o_props o)).*1 ++
          match o_proto o with
          | Some p => if decide (p < l) then forin_from n' h p else []
          | None => []
          end
      end
  end.

Definition forin (h : heap) (l : loc) : list string := forin_from (S l) h l.

(** The write [l[k] = v]: an own property of [l]. *)
Definition assign (h : heap) (l : loc) (k : string) (v : value) : heap :=
  match h !! l with
  | Some o => <[l := Obj (o_proto o) (<[k := v]> (o_props o)) (o_code o)]> h
  | None => h
  end.

(** A read on an arbitrary value; the primitives have no members here. *)
Definition getv (h : heap) (v : value) (k : string) : value :=
  match v with
  | VRef l => get h l k
  | _ => VUndef
  end.

(** [_.extend(dst, src)]: every key a for-in over [src] visits is written
    to [dst]. *)
Definition copy_keys (h : heap) (dst src : loc) (keys : list string) : heap :=
  fold_left (fun h' key => assign h' dst key (get h' src key)) keys h.

Definition copy_members (h : heap) (dst src : loc) : heap :=
  copy_keys h dst src (forin h src).

(** [String.prototype.split(".")]. *)
Fixpoint split_dot (s : string) : list string :=
  match s with
  | EmptyString => [""]
  | String c r =>
      if Ascii.eqb c "."%char then "" :: split_dot r
      else match split_dot r with
           | x :: xs => String c x :: xs
           | [] => [String c ""]
           end
  end.

(** How a call ends: it returns, it raises (a [TypeError] in every case
    below), or control passes to a user function the embedding does not
    follow. *)
Inductive completion (A : Type) : Type :=
  | Returned (a : A)
  | Threw
  | Escaped.
Arguments Returned {A} a.
Arguments Threw {A}.
Arguments Escaped {A}.

(** ** Backbone's [extend]

    [parent.extend(protoProps)] of backbone.js, for a [protoProps] without a
    [constructor] member: a new constructor [child] receives the members of
    [parent]; [child.prototype] is a new object whose prototype is
    [parent.prototype], with [constructor] set to [child] and the members of
    [protoProps] copied in; [child.__super__] is [parent.prototype]. *)
Definition backbone_extend (h : heap) (parent protoProps : loc) : heap * loc :=
  let '(h1, child) := alloc h (func (CClass parent)) in
  let h2 := copy_members h1 child parent in
  let pp := get h2 parent "prototype" in
  let '(h3, P) :=
    alloc h2 (Obj (match pp with VRef q => Some q | _ => None end)
                  {[ "constructor" := VRef child ]} None) in
  let h4 := assign h3 child "prototype" (VRef P) in
  let h5 := copy_members h4 P protoProps in
  let h6 := assign h5 child "__super__" pp in
  (h6, child).

(** ** The state of the page

    [st_root] is [window[rootObject]], the [Base] instance on which
    [namespace] and [ready] are called; [st_registry] is the closure
    variable [registry]; [st_handlers] is what jQuery has bound, per bus
    object; [st_log] lists the callback invocations, oldest first. *)
Definition rootObject : string := "bloomberg".

Record handler : Type := Handler {
  hd_bus : loc;
  hd_event : string;
  hd_callback : cbid
}.

Record call : Type := Call {
  c_callback : cbid;
  c_event : string;
  c_seen : heap
}.

Record state : Type := State {
  st_heap : heap;
  st_root : loc;
  st_registry : gmap string loc;
  st_handlers : list handler;
  st_log : list call
}.

Definition with_heap (s : state) (h : heap) : state :=
  State h (st_root s) (st_registry s) (st_handlers s) (st_log s).

(** The [for (key in literal)] loop of [namespace]:
    [verified[parts[count]][key] = literal[key]] for each of [keys], the
    target [verified[parts[count]]] being read again at every key.  In
    strict mode a write to a primitive raises, as does one to [null] or
    [undefined]; the result is the store with the writes made so far and
    whether the loop has completed. *)
Fixpoint merge_keys (h : heap) (l : loc) (k : string) (lit : loc)
    (keys : list string) : heap * bool :=
  match keys with
  | [] => (h, true)
  | key :: rest =>
      match get h l k with
      | VRef target =>
          merge_keys (assign h target key (get h lit key)) l k lit rest
      | _ => (h, false)
      end
  end.

(** One iteration of the [for (; count < partsCount; count++)] loop of
    [namespace], for the segment [k = parts[count]]; [last] is
    [count === partsCount - 1].  The result is the new [verified].  A
    primitive [verified] has no member to read and cannot be written to. *)
Definition visit (h : heap) (verified : value) (k : string) (last : bool)
    (lit : loc) : heap * completion value :=
  match verified with
  | VUndef | VNull => (h, Threw)
  | VRef l =>
      match get h l k with
      | VUndef =>
          if last then
            let h' := assign h l k (VRef lit) in (h', Returned (get h' l k))
          else
            let '(h1, n) := alloc h (plain ∅) in
            let h' := assign h1 l k (VRef n) in (h', Returned (get h' l k))
      | cur =>
          if last then
            match merge_keys h l k lit (forin h lit) with
            | (h', true) => (h', Returned (get h' l k))
            | (h', false) => (h', Threw)
            end
          else (h, Returned cur)
      end
  | _ => (h, Threw)
  end.

(** The whole loop: [parts] is what is left of the path, [verified] the
    container reached.  The store is returned in every case, the writes
    made before a raise included. *)
Fixpoint descend (h : heap) (verified : value) (parts : list string)
    (lit : loc) : heap * completion value :=
  match parts with
  | [] => (h, Returned verified)
  | k :: rest =>
      match visit h verified k (match rest with [] => true | _ => false end) lit with
      | (h', Returned v') => descend h' v' rest lit
      | r => r
      end
  end.

(** What calling [v] as a function runs, if [v] is callable. *)
Definition callable (h : heap) (v : value) : option code :=
  match v with
  | VRef l => o ← h !! l; o_code o
  | _ => None
  end.

(** The fully-qualified name [namespace] computes for its config. *)
Definition qualified (namespace : string) : string :=
  if decide (namespace = "") then rootObject
  else rootObject +:+ "." +:+ namespace.

(** [verified.View = verified.View.extend({config: {namespace: {...}}})]:
    the read of [verified.View.extend], the argument, the call, the write. *)
Definition extend_view (h : heap) (verified : value) (namespace : string)
    : heap * completion loc :=
  match verified with
  | VRef t =>
      match get h t "View" with
      | VUndef | VNull => (h, Threw)
      | view =>
          let ext := getv h view "extend" in
          let '(h1, ns) :=
            alloc h (plain {[ "literal" := VStr (qualified namespace);
                              "object" := verified ]}) in
          let '(h2, cfg) := alloc h1 (plain {[ "namespace" := VRef ns ]}) in
          let '(h3, props) := alloc h2 (plain {[ "config" := VRef cfg ]}) in
          match callable h3 ext, view with
          | Some CExtend, VRef parent =>
              let '(h4, child) := backbone_extend h3 parent props in
              (assign h4 t "View" (VRef child), Returned t)
          | Some _, _ => (h3, Escaped)
          | None, _ => (h3, Threw)
          end
      end
  | _ => (h, Threw)
  end.

(** ** The event bus, [namespace] and [ready] *)

Section Registrar.

(** jQuery decides which bound handlers an emitted event name reaches
    (event types and namespaces); [fires_on bound emitted] stands for that
    test. *)
Variable fires_on : string -> string -> bool.

(** [$(pool).on(name, function (evt) { callback.call(self, evt); })]. *)
Definition jq_on (s : state) (pool : value) (name : string) (cb : cbid) : state :=
  match pool with
  | VRef b =>
      State (st_heap s) (st_root s) (st_registry s)
            (st_handlers s ++ [Handler b name cb]) (st_log s)
  | _ => s
  end.

(** The handlers bound on bus [b] that an emission of [name] reaches, in
    binding order. *)
Definition reached (hs : list handler) (b : loc) (name : string) : list handler :=
  filter (fun hd => hd_bus hd = b ∧ fires_on (hd_event hd) name = true) hs.

(** [$(pool).trigger(name)]: the reached handlers run one after the other,
    inside the call. *)
Definition jq_trigger (s : state) (pool : value) (name : string) : state :=
  match pool with
  | VRef b =>
      State (st_heap s) (st_root s) (st_registry s) (st_handlers s)
            (st_log s ++
             map (fun hd => Call (hd_callback hd) name (st_heap s))
                 (reached (st_handlers s) b name))
  | _ => s
  end.

(** [parts = namespace ? namespace.split(".") : []]. *)
Definition path_parts (namespace : string) : list string :=
  if decide (namespace = "") then [] else split_dot namespace.

(** [literal = literal || {}]; [None] is a call without the second
    argument. *)
Definition supplied (h : heap) (literal : option loc) : heap * loc :=
  match literal with
  | Some l => (h, l)
  | None => alloc h (plain ∅)
  end.

(** [registry[literal] = {object: verified}] and the [trigger] that
    follows, [key] being [verified.View.prototype.config.namespace.literal]. *)
Definition record_and_signal (s : state) (h : heap) (t : loc) (key : string)
    (eventPool : value) : state :=
  let '(h', entry) := alloc h (plain {[ "object" := VRef t ]}) in
  jq_trigger (State h' (st_root s) (<[key := entry]> (st_registry s))
                    (st_handlers s) (st_log s))
             eventPool ("ready." +:+ key).

(** [Base.prototype.namespace]. *)
Definition namespace (namespace : string) (literal : option loc) (s : state)
    : completion value * state :=
  let eventPool := get (st_heap s) (st_root s) "pool" in
  let parts := path_parts namespace in
  let '(h0, lit) := supplied (st_heap s) literal in
  match descend h0 (VRef (st_root s)) parts lit with
  | (h1, Returned verified) =>
      match extend_view h1 verified namespace with
      | (h2, Returned t) =>
          match getv h2 (getv h2 (getv h2 (getv h2 (get h2 t "View")
                   "prototype") "config") "namespace") "literal" with
          | VStr key =>
              (Returned (VRef t), record_and_signal s h2 t key eventPool)
          | _ => (Threw, with_heap s h2)
          end
      | (h2, Threw) => (Threw, with_heap s h2)
      | (h2, Escaped) => (Escaped, with_heap s h2)
      end
  | (h1, Threw) => (Threw, with_heap s h1)
  | (h1, Escaped) => (Escaped, with_heap s h1)
  end.

(** [Base.prototype.ready]. *)
Definition ready (namespace : string) (callback : cbid) (s : state) : state :=
  let eventName := "ready." +:+ namespace in
  let eventPool := get (st_heap s) (st_root s) "pool" in
  match st_registry s !! namespace with
  | Some _ =>
      State (st_heap s) (st_root s) (st_registry s) (st_handlers s)
            (st_log s ++ [Call callback eventName (st_heap s)])
  | None => jq_on s eventPool eventName callback
  end.

(** ** The page after bloomberg.js has run

    [Backbone.Events] and the three Backbone classes come from the library
    and share its [extend]; [Base.prototype] receives the five classes
    derived from them and the methods; [new Base(rootObject)] creates the
    root with its [pool] and ends with [this.namespace("")]. *)
Fixpoint alloc_methods (h : heap) (names : list string) (f : nat)
    : heap * gmap string value :=
  match names with
  | [] => (h, ∅)
  | name :: rest =>
      let '(h1, l) := alloc h (func (CUser f)) in
      let '(h2, m) := alloc_methods h1 rest (S f) in
      (h2, <[name := VRef l]> m)
  end.

Definition derive (h : heap) (parent : loc) (members : gmap string value)
    : heap * loc :=
  let '(h1, props) := alloc h (plain members) in
  backbone_extend h1 parent props.

Definition backbone_class (h : heap) (extend : loc) (methods : list string)
    (f : nat) : heap * loc :=
  let '(h1, ms) := alloc_methods h methods f in
  let '(h2, proto) := alloc h1 (plain ms) in
  alloc h2 (Obj None {[ "extend" := VRef extend; "prototype" := VRef proto ]}
                (Some (CUser f))).

Definition boot : state :=
  let '(h, extend) := alloc [] (func CExtend) in
  let '(h, ms) := alloc_methods h ["on"; "off"; "trigger"] 0 in
  let '(h, events) := alloc h (plain ms) in
  let '(h, bModel) := backbone_class h extend ["get"; "set"] 10 in
  let '(h, bCollection) := backbone_class h extend ["add"] 20 in
  let '(h, bView) := backbone_class h extend ["remove"] 30 in
  let '(h, baseProto) := alloc h (plain ∅) in
  let '(h, ms) := alloc_methods h ["initialize"] 40 in
  let '(h, collection) := derive h bCollection ms in
  let h := assign h baseProto "Collection" (VRef collection) in
  let '(h, map) := alloc h (plain ∅) in
  let '(h, defaults) := alloc h (plain {[ "map" := VRef map ]}) in
  let '(h, config) := derive h bModel {[ "defaults" := VRef defaults ]} in
  let h := assign h baseProto "Config" (VRef config) in
  let '(h, model) := derive h bModel ∅ in
  let h := assign h baseProto "Model" (VRef model) in
  let '(h, templates) := derive h bModel ∅ in
  let h := assign h baseProto "Templates" (VRef templates) in
  let '(h, cfg0) := alloc h (plain ∅) in
  let '(h, ms) :=
    alloc_methods h ["events"; "initialize"; "main"; "remove"; "render"] 50 in
  let '(h, view) := derive h bView (<["config" := VRef cfg0]> (<["el" := VNull]> ms)) in
  let h := assign h baseProto "View" (VRef view) in
  let '(h, ms) := alloc_methods h ["namespace"; "ready"] 60 in
  let h := assign h baseProto "namespace" (default VUndef (ms !! "namespace")) in
  let h := assign h baseProto "ready" (default VUndef (ms !! "ready")) in
  let '(h, ms) := alloc_methods h ["add"; "list"; "render"; "destroy"] 70 in
  let '(h, views) := alloc h (plain ms) in
  let h := assign h baseProto "views" (VRef views) in
  let '(h, root) := alloc h (Obj (Some baseProto) ∅ None) in
  let '(h, pool) := alloc h (plain ∅) in
  let h := copy_members h pool events in
  let h := assign h root "pool" (VRef pool) in
  (namespace "" None (State h root ∅ [] [])).2.

End Registrar.

(** The bus that delivers an event to the handlers bound under exactly its
    name. *)
Definition exact_name (bound emitted : string) : bool := String.eqb bound emitted.

(** ** Reading the namespace tree *)

(** The container reached by walking the segments [parts] from [v]. *)
Definition walk (h : heap) (v : value) (parts : list string) : value :=
  fold_left (getv h) parts v.

(** The iterations of the loop of [namespace] for the segments before the
    last one: [descend] on [inner ++ [k]] is [vivify] on [inner] followed by
    the last [visit]. *)
Fixpoint vivify (h : heap) (verified : value) (inner : list string)
    (lit : loc) : heap * completion value :=
  match inner with
  | [] => (h, Returned verified)
  | k :: rest =>
      match visit h verified k false lit with
      | (h', Returned v') => vivify h' v' rest lit
      | r => r
      end
  end.

(** The containers a walk along [parts] passes through, the one holding the
    last segment included, the one at the last segment excluded. *)
Fixpoint trail (h : heap) (v : value) (parts : list string) : list loc :=
  match parts, v with
  | k :: rest, VRef l => l :: trail h (get h l k) rest
  | _, _ => []
  end.

(** The object that becomes the terminal container of a registration: the
    one already at the path, or the literal when the path is new. *)
Definition terminal (h : heap) (root : loc) (parts : list string) (lit : loc)
    : loc :=
  match walk h (VRef root) parts with
  | VRef t => t
  | _ => lit
  end.

(** The path is clear: the literal and the containers on the way are objects
    of the store, and the terminal container is none of the containers on
    the way, nor a prototype of one. *)
Definition clear_path (h : heap) (root : loc) (parts : list string) (lit : loc)
    : bool :=
  bool_decide (lit < length h) &&
  forallb (fun l => bool_decide (l < length h) &&
                    bool_decide (terminal h root parts lit ∉ chain h l))
          (trail h (VRef root) parts).

(** The member list of a container the loop has just created: nothing, or
    the link to the next segment. *)
Definition link (h : heap) (c : loc) (rest : list string) : obj :=
  plain (match rest with
         | [] => ∅
         | next :: _ => {[ next := get h c next ]}
         end).

(** The page right after the script has run, on the exact-name bus. *)
Definition page : state := boot exact_name.

(** The page script creates the object literal [o] it is about to pass. *)
Definition literal (s : state) (o : obj) : state * loc :=
  let '(h, l) := alloc (st_heap s) o in (with_heap s h, l).

(** The example of the specification: [{total: 0}] for ["shop.cart"]. *)
Definition cart_total : obj := plain {[ "total" := VNum 0 ]}.

(** [child] is a class that [extend] derived from [parent]. *)
Definition subclass_of (h : heap) (child parent : loc) : Prop :=
  callable h (VRef child) = Some (CClass parent) /\
  get h child "__super__" = get h parent "prototype".

(** The calls a [trigger] of [name] on [pool] makes, with the store they
    observe. *)
Definition emitted (fires_on : string -> string -> bool) (hs : list handler)
    (pool : value) (name : string) (seen : heap) : list call :=
  match pool with
  | VRef b => map (fun hd => Call (hd_callback hd) name seen)
                  (reached fires_on hs b name)
  | _ => []
  end.

(** The calls of [cb] among [calls]. *)
Definition calls_of (cb : cbid) (calls : list call) : list call :=
  filter (fun c => c_callback c = cb) calls.

(** A literal that supplies the root's [View] class. *)
Definition with_view : obj :=
  plain {[ "View" := get (st_heap page) (st_root page) "View" ]}.

(** A literal with one member and no [View]. *)
Definition with_x : obj := plain {[ "x" := VNum 1 ]}.

(** A literal that supplies the root's [Model] class as its [View]. *)
Definition with_other_view : obj :=
  plain {[ "View" := get (st_heap page) (st_root page) "Model" ]}.

(** A literal with a [View] and the member [total]. *)
Definition cart_view_total : obj :=
  plain {[ "View" := get (st_heap page) (st_root page) "View";
           "total" := VNum 0 ]}.

Definition cart_currency : obj := plain {[ "currency" := VStr "USD" ]}.

Definition cart_total_5 : obj := plain {[ "total" := VNum 5 ]}.

(** The page with two literals created, ready to be registered one after
    the other. *)
Definition two_literals (o1 o2 : obj) : state * loc * loc :=
  let '(s1, m1) := literal page o1 in
  let '(s2, m2) := literal s1 o2 in
  (s2, m1, m2).

(** A tree that leads back to the root: ["a"] is registered with a literal
    whose member [x] is the root itself ([loop_first]); then a second
    literal with its own [x] is created, to be registered at ["a.x.a"]. *)
Definition loop_literal : state * loc :=
  literal page (plain {[ "x" := VRef (st_root page);
                         "View" := get (st_heap page) (st_root page) "View" ]}).

Definition loop_first : completion value * state :=
  namespace exact_name "a" (Some loop_literal.2) loop_literal.1.

Definition looped : state * loc :=
  let '(s3, x2) := literal loop_first.2 (plain ∅) in
  literal s3 (plain {[ "x" := VRef x2;
                       "View" := get (st_heap page) (st_root page) "View" ]}).

(** On the same tree, a container with a [View], a literal whose member [x]
    leads to it through [a], and a literal with the member [y]: the state,
    the container and the two literals. *)
Definition detour : state * loc * loc * loc :=
  let '(s3, b) :=
    literal loop_first.2
            (plain {[ "View" := get (st_heap page) (st_root page) "View" ]}) in
  let '(s4, x1) := literal s3 (plain {[ "a" := VRef b ]}) in
  let '(s5, m1) := literal s4 (plain {[ "x" := VRef x1 ]}) in
  let '(s6, m2) := literal s5 (plain {[ "y" := VNum 2 ]}) in
  (s6, b, m1, m2).

(** Running one call after the other: a raise ends the sequence. *)
Definition and_then {A B : Type} (first : state -> completion A * state)
    (second : state -> completion B * state) (s : state)
    : completion B * state :=
  match first s with
  | (Returned _, s1) => second s1
  | (Threw, s1) => (Threw, s1)
  | (Escaped, s1) => (Escaped, s1)
  end.


(** ** main.js: the search box

    [$('.search').keyup(...)]: on the Enter key the text of the box, its
    spaces turned into [+] by [split(' ').join('+')], is appended to the
    search address, which becomes [window.location]. *)

(** [String.prototype.split(sep)] for a separator of one character. *)
Fixpoint split_on (sep : ascii) (s : string) : list string :=
  match s with
  | EmptyString => [""]
  | String c r =>
      if Ascii.eqb c sep then "" :: split_on sep r
      else match split_on sep r with
           | x :: xs => String c x :: xs
           | [] => [String c ""]
           end
  end.

(** [Array.prototype.join(sep)] on strings. *)
Fixpoint join_with (sep : string) (parts : list string) : string :=
  match parts with
  | [] => ""
  | x :: rest =>
      match rest with
      | [] => x
      | _ :: _ => x +:+ sep +:+ join_with sep rest
      end
  end.

(** The character [c] occurs in [s]. *)
Fixpoint occurs (c : ascii) (s : string) : bool :=
  match s with
  | EmptyString => false
  | String d r => Ascii.eqb d c || occurs c r
  end.

(** [tokens = text.split(' ').join('+')]. *)
Definition search_tokens (text : string) : string :=
  join_with "+" (split_on " "%char text).

(** The handler: [which] is [e.which], [text] the value of the box,
    [location] the current [window.location]; the result is
    [window.location] after the handler. *)
Definition search_keyup (which : Z) (text location : string) : string :=
  if (which =? 13)%Z
  then "http://www.businessweek.com/search?q=" +:+ search_tokens text
  else location.

(** The character the search handler puts for [c]. *)
Definition plus_for_space (c : ascii) : ascii :=
  if Ascii.eqb c " "%char then "+"%char else c.

(** ** What a call may do to the store *)

(** [h'] has every object of [h], with the same prototype chain and with
    every member it had (the values may differ): nothing is deleted. *)
Definition store_grows (h h' : heap) : Prop :=
  length h <= length h' /\
  forall l, l < length h ->
    chain h' l = chain h l /\
    forall k, has h l k = true -> has h' l k = true.

(** ** The rest of bloomberg.js *)

(** JavaScript's truthiness. *)
Definition truthy (v : value) : bool :=
  match v with
  | VUndef | VNull => false
  | VBool b => b
  | VNum n => negb (n =? 0)%Z
  | VStr s => negb (String.eqb s "")
  | VRef _ => true
  end.

(** [typeof v[name] === "function"]. *)
Definition has_method (h : heap) (v : value) (name : string) : bool :=
  match callable h (getv h v name) with
  | Some _ => true
  | None => false
  end.

(** *** [Base.prototype.views]

    The closure variable [views] names an array; arrays live in their own
    store, indexed by allocation order, so that the array [list()] hands out
    is the one [add] pushes to.  [vs_calls] records the [render] and
    [destroy] calls made on views, oldest first. *)
Record views_state : Type := Views {
  vs_arrays : list (list value);
  vs_views : nat;
  vs_calls : list (string * value)
}.

(** The array [views] names at the moment. *)
Definition views_now (st : views_state) : list value :=
  default [] (vs_arrays st !! vs_views st).

(** [add(view)]: [views.push(view)]. *)
Definition views_add (view : value) (st : views_state) : views_state :=
  Views (<[vs_views st := views_now st ++ [view]]> (vs_arrays st))
        (vs_views st) (vs_calls st).

(** [list()]: the array itself, not a copy. *)
Definition views_list (st : views_state) : nat := vs_views st.

(** [null] or [undefined]: a value no member can be read from. *)
Definition nullish (v : value) : bool :=
  match v with
  | VUndef | VNull => true
  | _ => false
  end.

(** The registry as the script creates it: [var views = []]. *)
Definition views_start : views_state := Views [[]] 0 [].

(** [_.each(views, function (view) { if (typeof view[name] === "function")
    view[name](); })]: the calls made, and whether the iteration got to the
    end; reading a member of [null] or [undefined] raises. *)
Fixpoint each_call (h : heap) (name : string) (views : list value)
    : list (string * value) * bool :=
  match views with
  | [] => ([], true)
  | view :: rest =>
      match view with
      | VUndef | VNull => ([], false)
      | _ =>
          let '(calls, ok) := each_call h name rest in
          if has_method h view name then ((name, view) :: calls, ok)
          else (calls, ok)
      end
  end.

(** [render()]. *)
Definition views_render (h : heap) (st : views_state)
    : completion unit * views_state :=
  let '(calls, ok) := each_call h "render" (views_now st) in
  let st' := Views (vs_arrays st) (vs_views st) (vs_calls st ++ calls) in
  (if ok then Returned tt else Threw, st').

(** [destroy()]: the calls, then [views = []], a new array. *)
Definition views_destroy (h : heap) (st : views_state)
    : completion unit * views_state :=
  let '(calls, ok) := each_call h "destroy" (views_now st) in
  if ok then
    (Returned tt,
     Views (vs_arrays st ++ [[]]) (length (vs_arrays st)) (vs_calls st ++ calls))
  else (Threw, Views (vs_arrays st) (vs_views st) (vs_calls st ++ calls)).

(** *** The loop of [Base.prototype.View.remove]

    [counter = cachedViews.length; while (cachedViews[--counter]) {
    cachedViews[counter].remove(); cachedViews[counter] = null; }]:
    [counter] is the value before the decrement, [removed] lists the views
    whose [remove] has been called, first call first.  Calling [remove] on a
    truthy entry that has no such method raises. *)
Fixpoint sweep (h : heap) (cached : list value) (counter : nat)
    (removed : list value) : completion unit * list value * list value :=
  match counter with
  | O => (Returned tt, cached, removed)
  | S c =>
      match cached !! c with
      | Some view =>
          if truthy view then
            if has_method h view "remove"
            then sweep h (<[c := VNull]> cached) c (removed ++ [view])
            else (Threw, cached, removed)
          else (Returned tt, cached, removed)
      | None => (Returned tt, cached, removed)
      end
  end.

(** A view the loop can remove: a truthy entry with a [remove] method. *)
Definition removable (h : heap) (view : value) : Prop :=
  truthy view = true /\ has_method h view "remove" = true.

(** A store with one function and one object whose [remove] it is. *)
Definition removable_store : heap :=
  [func (CUser 0); plain {[ "remove" := VRef 0 ]}].

Definition remove_cached (h : heap) (cached : list value)
    : completion unit * list value * list value :=
  sweep h cached (length cached) [].

(** *** [Base.prototype.Collection.initialize]

    [if (options && options.view) { config = options.view.config; namespace
    = config.namespace || config.get("namespace"); namespaceObject =
    namespace.object; this.model = namespaceObject.Model; }].  The call of
    [config.get] goes to a function the embedding does not follow. *)
Definition collection_initialize (h : heap) (this : loc) (options : value)
    : heap * completion unit :=
  if truthy options && truthy (getv h options "view") then
    match getv h (getv h options "view") "config" with
    | VUndef | VNull => (h, Threw)
    | config =>
        if truthy (getv h config "namespace") then
          match getv h (getv h config "namespace") "object" with
          | VUndef | VNull => (h, Threw)
          | namespaceObject =>
              (assign h this "model" (getv h namespaceObject "Model"),
               Returned tt)
          end
        else if has_method h config "get" then (h, Escaped)
        else (h, Threw)
    end
  else (h, Returned tt).

(** * Facts about the store *)

Section StoreFacts.

Implicit Types (h : heap) (l t p : loc) (k : string) (v : value) (o : obj).

Lemma find_from_fuel h k n m l :
  l < n -> l < m -> find_from n h l k = find_from m h l k.
Proof.
  revert m l. induction n as [|n IH]; intros m l Hn Hm; [lia|].
  destruct m as [|m]; [lia|]. simpl.
  destruct (h !! l) as [o|]; [|done].
  destruct (o_props o !! k); [done|].
  destruct (o_proto o) as [q|]; [|done].
  destruct (decide (q < l)); [|done]. apply IH; lia.
Qed.

Lemma find_from_S n h l k :
  find_from (S n) h l k =
  match h !! l with
  | None => None
  | Some o =>
      match o_props o !! k with
      | Some v => Some v
      | None =>
          match o_proto o with
          | Some p => if decide (p < l) then find_from n h p k else None
          | None => None
          end
      end
  end.
Proof. reflexivity. Qed.

Lemma chain_from_S n h l :
  chain_from (S n) h l =
  match h !! l with
  | None => []
  | Some o =>
      l :: match o_proto o with
           | Some p => if decide (p < l) then chain_from n h p else []
           | None => []
           end
  end.
Proof. reflexivity. Qed.

Lemma forin_from_S n h l :
  forin_from (S n) h l =
  match h !! l with
  | None => []
  | Some o =>
      (map_to_list (o_props o)).*1 ++
      match o_proto o with
      | Some p => if decide (p < l) then forin_from n h p else []
      | None => []
      end
  end.
Proof. reflexivity. Qed.

Lemma find_unfold h l k :
  find h l k =
  match h !! l with
  | None => None
  | Some o =>
      match o_props o !! k with
      | Some v => Some v
      | None =>
          match o_proto o with
          | Some p => if decide (p < l) then find h p k else None
          | None => None
          end
      end
  end.
Proof.
  unfold find. rewrite find_from_S.
  destruct (h !! l) as [o|]; [|done].
  destruct (o_props o !! k); [done|].
  destruct (o_proto o) as [q|]; [|done].
  destruct (decide (q < l)); [|done]. apply find_from_fuel; lia.
Qed.

Lemma chain_from_fuel h n m l :
  l < n -> l < m -> chain_from n h l = chain_from m h l.
Proof.
  revert m l. induction n as [|n IH]; intros m l Hn Hm; [lia|].
  destruct m as [|m]; [lia|]. simpl.
  destruct (h !! l) as [o|]; [|done]. f_equal.
  destruct (o_proto o) as [q|]; [|done].
  destruct (decide (q < l)); [|done]. apply IH; lia.
Qed.

Lemma chain_unfold h l :
  chain h l =
  match h !! l with
  | None => []
  | Some o =>
      l :: match o_proto o with
           | Some p => if decide (p < l) then chain h p else []
           | None => []
           end
  end.
Proof.
  unfold chain. rewrite chain_from_S.
  destruct (h !! l) as [o|]; [|done]. f_equal.
  destruct (o_proto o) as [q|]; [|done].
  destruct (decide (q < l)); [|done]. apply chain_from_fuel; lia.
Qed.

Lemma forin_from_fuel h n m l :
  l < n -> l < m -> forin_from n h l = forin_from m h l.
Proof.
  revert m l. induction n as [|n IH]; intros m l Hn Hm; [lia|].
  destruct m as [|m]; [lia|]. simpl.
  destruct (h !! l) as [o|]; [|done]. f_equal.
  destruct (o_proto o) as [q|]; [|done].
  destruct (decide (q < l)); [|done]. apply IH; lia.
Qed.

Lemma forin_unfold h l :
  forin h l =
  match h !! l with
  | None => []
  | Some o =>
      (map_to_list (o_props o)).*1 ++
      match o_proto o with
      | Some p => if decide (p < l) then forin h p else []
      | None => []
      end
  end.
Proof.
  unfold forin. rewrite forin_from_S.
  destruct (h !! l) as [o|]; [|done]. f_equal.
  destruct (o_proto o) as [q|]; [|done].
  destruct (decide (q < l)); [|done]. apply forin_from_fuel; lia.
Qed.

(** A for-in visits exactly the keys that are [in] the object. *)
Lemma forin_spec h l k : k ∈ forin h l <-> is_Some (find h l k).
Proof.
  induction (lt_wf l) as [l _ IH].
  rewrite forin_unfold, find_unfold.
  destruct (h !! l) as [o|]; simpl;
    [|split; [by intros ?%elem_of_nil|by intros [? ?]]].
  rewrite elem_of_app.
  destruct (o_props o !! k) as [v|] eqn:Hk.
  - split; [by eauto|]. intros _. left.
    apply list_elem_of_fmap. exists (k, v). split; [done|].
    by apply elem_of_map_to_list.
  - assert (k ∉ (map_to_list (o_props o)).*1) as Hn.
    { intros [[k' v] [-> Hin%elem_of_map_to_list]]%list_elem_of_fmap.
      simpl in *. congruence. }
    destruct (o_proto o) as [q|].
    + destruct (decide (q < l)).
      * rewrite <- IH by done. tauto.
      * split; [intros [?|?%elem_of_nil]; done|by intros [? ?]].
    + split; [intros [?|?%elem_of_nil]; done|by intros [? ?]].
Qed.

(** *** Writes *)

Lemma assign_length h t k v : length (assign h t k v) = length h.
Proof. unfold assign. destruct (h !! t); [apply length_insert|done]. Qed.

Lemma assign_lookup_ne h t k v l :
  l ≠ t -> assign h t k v !! l = h !! l.
Proof.
  intros Hne. unfold assign. destruct (h !! t); [|done].
  by apply list_lookup_insert_ne.
Qed.

Lemma assign_lookup_eq h t k v o :
  h !! t = Some o ->
  assign h t k v !! t = Some (Obj (o_proto o) (<[k := v]> (o_props o)) (o_code o)).
Proof.
  intros Ho. unfold assign. rewrite Ho.
  apply list_lookup_insert_eq. by eapply lookup_lt_Some.
Qed.

Lemma assign_none h t k v : h !! t = None -> assign h t k v = h.
Proof. intros Ho. unfold assign. by rewrite Ho. Qed.

Lemma assign_code h t k v (x : value) :
  callable (assign h t k v) x = callable h x.
Proof.
  destruct x as [| | | | | l]; try done. simpl.
  destruct (decide (l = t)) as [->|Hne].
  - destruct (h !! t) as [o|] eqn:Ho.
    + by rewrite (assign_lookup_eq _ _ _ _ _ Ho).
    + by rewrite (assign_none _ _ _ _ Ho), ?Ho.
  - by rewrite assign_lookup_ne by done.
Qed.

Lemma chain_assign h t k v l : chain (assign h t k v) l = chain h l.
Proof.
  induction (lt_wf l) as [l _ IH].
  rewrite (chain_unfold (assign _ _ _ _)), (chain_unfold h).
  destruct (decide (l = t)) as [->|Hne].
  - destruct (h !! t) as [o|] eqn:Ho.
    + rewrite (assign_lookup_eq _ _ _ _ _ Ho). simpl. f_equal.
      destruct (o_proto o) as [q|]; [|done].
      destruct (decide (q < t)); [|done]. by apply IH.
    + by rewrite (assign_none _ _ _ _ Ho), ?Ho.
  - rewrite assign_lookup_ne by done.
    destruct (h !! l) as [o|]; [|done]. f_equal.
    destruct (o_proto o) as [q|]; [|done].
    destruct (decide (q < l)); [|done]. by apply IH.
Qed.

(** A write to another key is not seen. *)
Lemma find_assign_key h t k v l k' :
  k ≠ k' -> find (assign h t k v) l k' = find h l k'.
Proof.
  intros Hk. induction (lt_wf l) as [l _ IH].
  rewrite (find_unfold (assign _ _ _ _)), (find_unfold h).
  destruct (decide (l = t)) as [->|Hne].
  - destruct (h !! t) as [o|] eqn:Ho.
    + rewrite (assign_lookup_eq _ _ _ _ _ Ho). simpl.
      rewrite lookup_insert_ne by done.
      destruct (o_props o !! k'); [done|].
      destruct (o_proto o) as [q|]; [|done].
      destruct (decide (q < t)); [|done]. by apply IH.
    + by rewrite (assign_none _ _ _ _ Ho), ?Ho.
  - rewrite assign_lookup_ne by done.
    destruct (h !! l) as [o|]; [|done].
    destruct (o_props o !! k'); [done|].
    destruct (o_proto o) as [q|]; [|done].
    destruct (decide (q < l)); [|done]. by apply IH.
Qed.

(** A write to an object off the prototype chain of [l] is not seen
    from [l]. *)
Lemma find_assign_off h t k v l k' :
  t ∉ chain h l -> find (assign h t k v) l k' = find h l k'.
Proof.
  induction (lt_wf l) as [l _ IH]. intros Hoff.
  rewrite (find_unfold (assign _ _ _ _)), (find_unfold h).
  rewrite chain_unfold in Hoff.
  destruct (decide (l = t)) as [->|Hne].
  - destruct (h !! t) as [o|] eqn:Ho.
    + exfalso. apply Hoff. left.
    + by rewrite (assign_none _ _ _ _ Ho), ?Ho.
  - rewrite assign_lookup_ne by done.
    destruct (h !! l) as [o|]; [|done].
    destruct (o_props o !! k'); [done|].
    destruct (o_proto o) as [q|]; [|done].
    destruct (decide (q < l)); [|done]. apply IH; [done|].
    intros Hin. apply Hoff. by right.
Qed.

(** The written value is read back. *)
Lemma find_assign_eq h t k v :
  t < length h -> find (assign h t k v) t k = Some v.
Proof.
  intros [o Ho]%lookup_lt_is_Some. rewrite find_unfold.
  rewrite (assign_lookup_eq _ _ _ _ _ Ho). simpl.
  by rewrite lookup_insert_eq.
Qed.

(** A write where the read gave [undefined] leaves every defined read as it
    was. *)
Lemma get_assign_undef h t k v l k' :
  get h t k = VUndef -> get h l k' ≠ VUndef ->
  get (assign h t k v) l k' = get h l k'.
Proof.
  intros Hu. unfold get in *. induction (lt_wf l) as [l _ IH]. intros Hd.
  destruct (decide (k = k')) as [<-|Hk]; [|by rewrite find_assign_key].
  destruct (decide (l = t)) as [->|Hne]; [congruence|].
  rewrite (find_unfold (assign _ _ _ _)), (find_unfold h).
  rewrite (find_unfold h) in Hd.
  rewrite assign_lookup_ne by done.
  destruct (h !! l) as [o|]; [|done].
  destruct (o_props o !! k); [done|].
  destruct (o_proto o) as [q|]; [|done].
  destruct (decide (q < l)); [|done]. by apply IH.
Qed.

(** Writes never remove a member. *)
Lemma find_assign_mono h t k v l k' :
  is_Some (find h l k') -> is_Some (find (assign h t k v) l k').
Proof.
  induction (lt_wf l) as [l _ IH].
  rewrite (find_unfold (assign _ _ _ _)), (find_unfold h).
  destruct (decide (l = t)) as [->|Hne].
  - destruct (h !! t) as [o|] eqn:Ho; [|by intros [? ?]].
    rewrite (assign_lookup_eq _ _ _ _ _ Ho). simpl.
    destruct (decide (k = k')) as [<-|Hk].
    + rewrite lookup_insert_eq. eauto.
    + rewrite lookup_insert_ne by done.
      destruct (o_props o !! k'); [done|].
      destruct (o_proto o) as [q|]; [|done].
      destruct (decide (q < t)); [|done]. by apply IH.
  - rewrite assign_lookup_ne by done.
    destruct (h !! l) as [o|]; [|done].
    destruct (o_props o !! k'); [done|].
    destruct (o_proto o) as [q|]; [|done].
    destruct (decide (q < l)); [|done]. by apply IH.
Qed.

(** Writing to [t] the value read from [l] does not change that read. *)
Lemma get_assign_same h t k l x :
  get h l k = x -> get (assign h t k x) l k = x.
Proof.
  unfold get. induction (lt_wf l) as [l _ IH]. intros Hx.
  rewrite (find_unfold (assign _ _ _ _)). rewrite (find_unfold h) in Hx.
  destruct (decide (l = t)) as [->|Hne].
  - destruct (h !! t) as [o|] eqn:Ho.
    + rewrite (assign_lookup_eq _ _ _ _ _ Ho). simpl.
      by rewrite lookup_insert_eq.
    + by rewrite (assign_none _ _ _ _ Ho), Ho.
  - rewrite assign_lookup_ne by done.
    destruct (h !! l) as [o|]; [|done].
    destruct (o_props o !! k); [done|].
    destruct (o_proto o) as [q|]; [|done].
    destruct (decide (q < l)); [|done]. by apply IH.
Qed.

(** *** Allocation *)

Lemma find_alloc h o l k : l < length h -> find (h ++ [o]) l k = find h l k.
Proof.
  induction (lt_wf l) as [l _ IH]. intros Hl.
  rewrite (find_unfold (_ ++ _)), (find_unfold h).
  rewrite lookup_app_l by done.
  destruct (h !! l) as [o'|]; [|done].
  destruct (o_props o' !! k); [done|].
  destruct (o_proto o') as [q|]; [|done].
  destruct (decide (q < l)); [|done]. apply IH; [done|lia].
Qed.

Lemma chain_alloc h o l : l < length h -> chain (h ++ [o]) l = chain h l.
Proof.
  induction (lt_wf l) as [l _ IH]. intros Hl.
  rewrite (chain_unfold (_ ++ _)), (chain_unfold h).
  rewrite lookup_app_l by done.
  destruct (h !! l) as [o'|]; [|done]. f_equal.
  destruct (o_proto o') as [q|]; [|done].
  destruct (decide (q < l)); [|done]. apply IH; [done|lia].
Qed.

Lemma lookup_alloc_new h o : (h ++ [o]) !! length h = Some o.
Proof. rewrite lookup_app_r by lia. by rewrite Nat.sub_diag. Qed.

Lemma chain_bound h l t : t ∈ chain h l -> t <= l /\ t < length h.
Proof.
  induction (lt_wf l) as [l _ IH]. rewrite chain_unfold.
  destruct (h !! l) as [o|] eqn:Ho; [|by intros ?%elem_of_nil].
  apply lookup_lt_Some in Ho.
  intros [->|Hin]%elem_of_cons; [lia|].
  destruct (o_proto o) as [q|]; [|by apply elem_of_nil in Hin].
  destruct (decide (q < l)); [|by apply elem_of_nil in Hin].
  apply IH in Hin; [lia|done].
Qed.

(** *** [_.extend] and the for-in merge *)

Lemma copy_keys_cons h dst src k keys :
  copy_keys h dst src (k :: keys) =
  copy_keys (assign h dst k (get h src k)) dst src keys.
Proof. reflexivity. Qed.

Lemma copy_keys_length h dst src keys :
  length (copy_keys h dst src keys) = length h.
Proof.
  revert h. induction keys as [|k keys IH]; intros h; [done|].
  by rewrite copy_keys_cons, IH, assign_length.
Qed.

Lemma copy_keys_chain h dst src keys l :
  chain (copy_keys h dst src keys) l = chain h l.
Proof.
  revert h. induction keys as [|k keys IH]; intros h; [done|].
  by rewrite copy_keys_cons, IH, chain_assign.
Qed.

Lemma copy_keys_code h dst src keys (x : value) :
  callable (copy_keys h dst src keys) x = callable h x.
Proof.
  revert h. induction keys as [|k keys IH]; intros h; [done|].
  by rewrite copy_keys_cons, IH, assign_code.
Qed.

Lemma copy_keys_other h dst src keys l k :
  k ∉ keys -> find (copy_keys h dst src keys) l k = find h l k.
Proof.
  revert h. induction keys as [|k' keys IH]; intros h Hk; [done|].
  apply not_elem_of_cons in Hk as [Hne Hk].
  rewrite copy_keys_cons, IH by done.
  by apply find_assign_key.
Qed.

Lemma copy_keys_off h dst src keys l k :
  dst ∉ chain h l -> find (copy_keys h dst src keys) l k = find h l k.
Proof.
  revert h. induction keys as [|k' keys IH]; intros h Hoff; [done|].
  rewrite copy_keys_cons, IH by (by rewrite chain_assign).
  by apply find_assign_off.
Qed.

Lemma copy_keys_mono h dst src keys l k :
  is_Some (find h l k) -> is_Some (find (copy_keys h dst src keys) l k).
Proof.
  revert h. induction keys as [|k' keys IH]; intros h Hs; [done|].
  rewrite copy_keys_cons. apply IH. by apply find_assign_mono.
Qed.

Lemma copy_keys_value h dst src keys k :
  dst < length h -> k ∈ keys ->
  find (copy_keys h dst src keys) dst k = Some (get h src k).
Proof.
  revert h. induction keys as [|k' keys IH]; intros h Hd Hk;
    [by apply elem_of_nil in Hk|].
  rewrite copy_keys_cons.
  assert (get (assign h dst k' (get h src k')) src k = get h src k) as Hsame.
  { destruct (decide (k' = k)) as [->|Hne]; [by apply get_assign_same|].
    unfold get. by rewrite find_assign_key. }
  destruct (decide (k ∈ keys)) as [Hin|Hout].
  - rewrite IH; [by rewrite Hsame|by rewrite assign_length|done].
  - apply elem_of_cons in Hk as [->|?]; [|done].
    rewrite copy_keys_other by done. by apply find_assign_eq.
Qed.

Lemma find_alloc_new h o k v :
  o_props o !! k = Some v -> find (h ++ [o]) (length h) k = Some v.
Proof. intros Hk. by rewrite find_unfold, lookup_alloc_new, Hk. Qed.

Lemma chain_alloc_new h o :
  o_proto o = None -> chain (h ++ [o]) (length h) = [length h].
Proof. intros Hp. by rewrite chain_unfold, lookup_alloc_new, Hp. Qed.

Lemma callable_alloc h o l :
  l < length h -> callable (h ++ [o]) (VRef l) = callable h (VRef l).
Proof. intros Hl. simpl. by rewrite lookup_app_l. Qed.

Lemma off_chain_newer h l t : l < t -> t ∉ chain h l.
Proof. intros Hlt Hin%chain_bound. lia. Qed.

Lemma copy_members_length h dst src :
  length (copy_members h dst src) = length h.
Proof. apply copy_keys_length. Qed.

Lemma copy_members_value h dst src k :
  dst < length h -> is_Some (find h src k) ->
  find (copy_members h dst src) dst k = Some (get h src k).
Proof. intros Hd Hk. apply copy_keys_value; [done|]. by apply forin_spec. Qed.

Lemma copy_members_other h dst src l k :
  find h src k = None -> find (copy_members h dst src) l k = find h l k.
Proof.
  intros Hk. apply copy_keys_other. rewrite forin_spec, Hk. by intros [? ?].
Qed.

(** *** What [extend] builds *)

Lemma backbone_extend_spec h parent props h' child :
  backbone_extend h parent props = (h', child) ->
  parent < length h -> props < length h ->
  child = length h /\ length h' = S (S (length h)) /\
  (forall l k, l < length h -> find h' l k = find h l k) /\
  (forall l, l < length h -> chain h' l = chain h l) /\
  (forall l, l < length h -> callable h' (VRef l) = callable h (VRef l)) /\
  callable h' (VRef child) = Some (CClass parent) /\
  find h' child "prototype" = Some (VRef (S (length h))) /\
  find h' child "__super__" = Some (get h parent "prototype") /\
  (forall k, is_Some (find h props k) -> k ≠ "__super__" ->
     find h' (S (length h)) k = Some (get h props k)).
Proof.
  unfold backbone_extend, alloc. cbn zeta.
  set (n := length h).
  set (h1 := h ++ [func (CClass parent)]).
  set (h2 := copy_members h1 n parent).
  set (pp := get h2 parent "prototype").
  set (Pobj := Obj _ _ None).
  set (h3 := h2 ++ [Pobj]).
  assert (length h2 = S n) as Hl2.
  { unfold h2. rewrite copy_members_length. unfold h1.
    rewrite length_app. simpl. lia. }
  rewrite Hl2.
  set (h4 := assign h3 n "prototype" (VRef (S n))).
  set (h5 := copy_members h4 (S n) props).
  set (h6 := assign h5 n "__super__" pp).
  intros [= <- <-] Hparent Hprops.
  assert (length h3 = S (S n)) as Hl3.
  { unfold h3. rewrite length_app, Hl2. simpl. lia. }
  assert (forall l k, l < n -> find h2 l k = find h l k) as F2.
  { intros l k Hl. unfold h2, copy_members.
    rewrite copy_keys_off by (apply off_chain_newer; lia).
    by apply find_alloc. }
  assert (forall l k, l < n -> find h4 l k = find h l k) as F4.
  { intros l k Hl. unfold h4.
    rewrite find_assign_off by (apply off_chain_newer; lia).
    unfold h3. rewrite find_alloc by lia. by apply F2. }
  assert (pp = get h parent "prototype") as Hpp.
  { unfold pp, get. by rewrite F2. }
  assert (chain h3 n = [n]) as Hc3.
  { unfold h3. rewrite chain_alloc by lia. unfold h2, copy_members.
    rewrite copy_keys_chain. by apply chain_alloc_new. }
  split; [done|]. split.
  { unfold h6. rewrite assign_length. unfold h5.
    rewrite copy_members_length. unfold h4. by rewrite assign_length. }
  split.
  { intros l k Hl. unfold h6.
    rewrite find_assign_off by (apply off_chain_newer; lia).
    unfold h5, copy_members.
    rewrite copy_keys_off by (apply off_chain_newer; lia). by apply F4. }
  split.
  { intros l Hl. unfold h6. rewrite chain_assign. unfold h5, copy_members.
    rewrite copy_keys_chain. unfold h4. rewrite chain_assign. unfold h3.
    rewrite chain_alloc by lia. unfold h2, copy_members.
    rewrite copy_keys_chain. by apply chain_alloc. }
  assert (forall l, l < S n -> callable h6 (VRef l) = callable h1 (VRef l))
    as Hcode.
  { intros l Hl. unfold h6. rewrite assign_code. unfold h5, copy_members.
    rewrite copy_keys_code. unfold h4. rewrite assign_code. unfold h3.
    rewrite callable_alloc by lia. unfold h2, copy_members.
    by rewrite copy_keys_code. }
  split.
  { intros l Hl. rewrite Hcode by lia. by apply callable_alloc. }
  split.
  { rewrite Hcode by lia. simpl. unfold h1, n. by rewrite lookup_alloc_new. }
  split.
  { unfold h6. rewrite find_assign_key by done. unfold h5, copy_members.
    rewrite copy_keys_off.
    - unfold h4. apply find_assign_eq. lia.
    - unfold h4. rewrite chain_assign, Hc3.
      apply not_elem_of_cons. split; [lia|apply not_elem_of_nil]. }
  split.
  { unfold h6. rewrite find_assign_eq; [by rewrite Hpp|].
    unfold h5. rewrite copy_members_length. unfold h4.
    rewrite assign_length. lia. }
  intros k Hk Hne. unfold h6. rewrite find_assign_key by done.
  unfold h5. rewrite copy_members_value.
  - unfold get. by rewrite F4.
  - unfold h4. rewrite assign_length. lia.
  - by rewrite F4.
Qed.


Lemma find_Some_lt h l k v : find h l k = Some v -> l < length h.
Proof.
  rewrite find_unfold. destruct (h !! l) eqn:Ho; [|done].
  intros _. by eapply lookup_lt_Some.
Qed.

Lemma get_ref_lt h l k r : get h l k = VRef r -> l < length h.
Proof.
  unfold get. destruct (find h l k) eqn:Hf; [|done].
  intros _. by eapply find_Some_lt.
Qed.

Lemma callable_lt h l c : callable h (VRef l) = Some c -> l < length h.
Proof.
  simpl. destruct (h !! l) eqn:Ho; [|done]. intros _. by eapply lookup_lt_Some.
Qed.

Lemma extend_view_spec h t ns parent e :
  get h t "View" = VRef parent ->
  get h parent "extend" = VRef e ->
  callable h (VRef e) = Some CExtend ->
  exists h',
    extend_view h (VRef t) ns = (h', Returned t) /\
    length h' = length h + 5 /\
    get h' t "View" = VRef (length h + 3) /\
    get h' (length h + 3) "prototype" = VRef (length h + 4) /\
    get h' (length h + 3) "__super__" = get h parent "prototype" /\
    callable h' (VRef (length h + 3)) = Some (CClass parent) /\
    get h' (length h + 4) "config" = VRef (length h + 1) /\
    get h' (length h + 1) "namespace" = VRef (length h) /\
    get h' (length h) "literal" = VStr (qualified ns) /\
    get h' (length h) "object" = VRef t /\
    (forall l k, l < length h -> k ≠ "View" \/ t ∉ chain h l ->
       find h' l k = find h l k) /\
    (forall l k, l < length h -> is_Some (find h l k) -> is_Some (find h' l k)) /\
    (forall l, l < length h -> chain h' l = chain h l).
Proof.
  intros Hview Hext Hcall.
  pose proof (get_ref_lt _ _ _ _ Hview) as Ht.
  pose proof (get_ref_lt _ _ _ _ Hext) as Hparent.
  pose proof (callable_lt _ _ _ Hcall) as He.
  unfold extend_view. rewrite Hview. simpl getv. rewrite Hext.
  unfold alloc. cbn zeta.
  set (n := length h).
  set (o0 := plain _). set (h1 := h ++ [o0]).
  assert (length h1 = S n) as L1 by (unfold h1; rewrite length_app; simpl; lia).
  rewrite L1.
  set (o1 := plain _). set (h2 := h1 ++ [o1]).
  assert (length h2 = S (S n)) as L2 by (unfold h2; rewrite length_app; simpl; lia).
  rewrite L2.
  set (o2 := plain _). set (h3 := h2 ++ [o2]).
  assert (length h3 = S (S (S n))) as L3
    by (unfold h3; rewrite length_app; simpl; lia).
  assert (forall l k, l < n -> find h3 l k = find h l k) as F3.
  { intros l k Hl. unfold h3. rewrite find_alloc by lia. unfold h2.
    rewrite find_alloc by lia. unfold h1. apply find_alloc. by unfold n in Hl. }
  assert (forall l, l < n -> chain h3 l = chain h l) as C3.
  { intros l Hl. unfold h3. rewrite chain_alloc by lia. unfold h2.
    rewrite chain_alloc by lia. unfold h1. apply chain_alloc. by unfold n in Hl. }
  assert (callable h3 (VRef e) = Some CExtend) as ->.
  { unfold h3. rewrite callable_alloc by (unfold n in *; lia). unfold h2.
    rewrite callable_alloc by (unfold n in *; lia). unfold h1.
    by rewrite callable_alloc by (unfold n in *; lia). }
  assert (find h3 (S (S n)) "config" = Some (VRef (S n))) as Hcfg.
  { unfold h3. rewrite <- L2. apply find_alloc_new. apply lookup_singleton_eq. }
  assert (find h3 (S n) "namespace" = Some (VRef n)) as Hns.
  { unfold h3. rewrite find_alloc by lia. unfold h2. rewrite <- L1.
    apply find_alloc_new. apply lookup_singleton_eq. }
  assert (find h3 n "literal" = Some (VStr (qualified ns)) /\
          find h3 n "object" = Some (VRef t)) as [Hlit Hobj].
  { unfold h3. rewrite !find_alloc by lia. unfold h2.
    rewrite !find_alloc by lia. unfold h1, n.
    split; apply find_alloc_new; unfold o0; simpl.
    - by rewrite lookup_insert_eq.
    - rewrite lookup_insert_ne by done. apply lookup_singleton_eq. }
  destruct (backbone_extend h3 parent (S (S n))) as [h4 child] eqn:Hbe.
  apply backbone_extend_spec in Hbe as
    (-> & L4 & F4 & C4 & _ & K4 & P4 & S4 & M4); [|lia..].
  rewrite L3 in *.
  exists (assign h4 t "View" (VRef (S (S (S n))))).
  replace (n + 3) with (S (S (S n))) by lia.
  replace (n + 4) with (S (S (S (S n)))) by lia.
  replace (n + 1) with (S n) by lia.
  split; [done|].
  split; [rewrite assign_length; lia|].
  split; [unfold get; by rewrite find_assign_eq by lia|].
  split; [unfold get; by rewrite find_assign_key, P4 by done|].
  split.
  { unfold get at 1. rewrite find_assign_key, S4 by done. simpl.
    unfold get. by rewrite F3. }
  split; [by rewrite assign_code|].
  split.
  { unfold get. rewrite find_assign_key by done.
    rewrite M4 by (by rewrite ?Hcfg). unfold get. by rewrite Hcfg. }
  split; [unfold get; by rewrite find_assign_key, F4, Hns by (done || lia)|].
  split; [unfold get; by rewrite find_assign_key, F4, Hlit by (done || lia)|].
  split; [unfold get; by rewrite find_assign_key, F4, Hobj by (done || lia)|].
  split.
  { intros l k Hl [Hk|Hoff].
    - rewrite find_assign_key by done. rewrite F4 by lia. by apply F3.
    - rewrite find_assign_off; [rewrite F4 by lia; by apply F3|].
      rewrite C4 by lia. by rewrite C3. }
  split.
  { intros l k Hl Hs. apply find_assign_mono. rewrite F4 by lia.
    by rewrite F3. }
  intros l Hl. rewrite chain_assign, C4 by lia. by apply C3.
Qed.

End StoreFacts.

(** * Facts about the loop of [namespace] *)

Section LoopFacts.

Implicit Types (h : heap) (l t lit : loc) (k : string) (v : value).

#[local] Arguments visit : simpl never.

Lemma descend_snoc inner : forall h v k lit,
  descend h v (inner ++ [k]) lit =
  match vivify h v inner lit with
  | (h1, Returned v1) => visit h1 v1 k true lit
  | r => r
  end.
Proof.
  induction inner as [|k0 rest IH]; intros h v k lit; simpl.
  - destruct (visit h v k true lit) as [h' [v'| |]]; done.
  - replace (match rest ++ [k] with [] => true | _ :: _ => false end)
      with false by (by destruct rest).
    destruct (visit h v k0 false lit) as [h' [v'| |]]; [apply IH|done..].
Qed.

(** An iteration before the last either steps into the member that is
    there, leaving the store alone, or creates an empty container. *)
Lemma visit_inner h l k lit h' v' :
  visit h (VRef l) k false lit = (h', Returned v') -> l < length h ->
  (get h l k ≠ VUndef /\ h' = h /\ v' = get h l k) \/
  (get h l k = VUndef /\
   h' = assign (h ++ [plain ∅]) l k (VRef (length h)) /\
   v' = VRef (length h)).
Proof.
  unfold visit, alloc. intros Hv Hl.
  destruct (get h l k) eqn:Hg; try (left; by inversion Hv).
  right. inversion Hv; subst. split; [done|]. split; [done|].
  unfold get. rewrite find_assign_eq; [done|].
  rewrite length_app. lia.
Qed.

Lemma visit_inner_value h v k lit h' v' :
  visit h v k false lit = (h', Returned v') -> exists l, v = VRef l.
Proof. destruct v; try done. eauto. Qed.

(** What an iteration before the last leaves in place. *)
Lemma visit_inner_frame h l k lit h' v' :
  visit h (VRef l) k false lit = (h', Returned v') -> l < length h ->
  length h <= length h' /\
  get h' l k = v' /\ v' ≠ VUndef /\
  (forall l0, l0 < length h -> chain h' l0 = chain h l0) /\
  (forall l0 k0, get h l0 k0 ≠ VUndef -> get h' l0 k0 = get h l0 k0) /\
  (forall l0 k0, l0 < length h -> is_Some (find h l0 k0) ->
     is_Some (find h' l0 k0)).
Proof.
  intros Hv Hl.
  destruct (visit_inner _ _ _ _ _ _ Hv Hl) as [(Hd & -> & ->)|(Hu & -> & ->)].
  - repeat split; done.
  - assert (get (h ++ [plain ∅]) l k = VUndef) as Hu'.
    { unfold get. by rewrite find_alloc. }
    split; [rewrite assign_length, length_app; lia|].
    split; [unfold get; rewrite find_assign_eq; [done|rewrite length_app; lia]|].
    split; [done|]. split; [|split].
    + intros l0 Hl0. by rewrite chain_assign, chain_alloc.
    + intros l0 k0 Hd.
      assert (l0 < length h) as Hl0.
      { unfold get in Hd. destruct (find h l0 k0) eqn:Hf; [|done].
        by eapply find_Some_lt. }
      rewrite get_assign_undef; [unfold get; by rewrite find_alloc|done|].
      unfold get. by rewrite find_alloc.
    + intros l0 k0 Hl0 Hs. apply find_assign_mono. by rewrite find_alloc.
Qed.

Lemma walk_cons h v k parts : walk h v (k :: parts) = walk h (getv h v k) parts.
Proof. reflexivity. Qed.

Lemma walk_snoc h v parts k : walk h v (parts ++ [k]) = getv h (walk h v parts) k.
Proof. unfold walk. by rewrite fold_left_app. Qed.

Lemma walk_undef h parts : walk h VUndef parts = VUndef.
Proof. induction parts as [|k parts IH]; [done|]. by rewrite walk_cons. Qed.

Lemma get_empty h n k : h !! n = Some (plain ∅) -> get h n k = VUndef.
Proof. intros Hn. unfold get. by rewrite find_unfold, Hn. Qed.

Lemma trail_undef h parts : trail h VUndef parts = [].
Proof. by destruct parts. Qed.

Lemma trail_empty h n k rest :
  h !! n = Some (plain ∅) -> trail h (VRef n) (k :: rest) = [n].
Proof. intros Hn. simpl. by rewrite (get_empty _ _ _ Hn), trail_undef. Qed.

(** The container an iteration before the last creates. *)
Lemma visit_inner_new h l k lit h' v' :
  visit h (VRef l) k false lit = (h', Returned v') -> l < length h ->
  get h l k = VUndef ->
  v' = VRef (length h) /\ h' !! length h = Some (plain ∅) /\
  length h' = S (length h) /\
  (forall l0, l0 < length h -> l0 ≠ l -> h' !! l0 = h !! l0).
Proof.
  intros Hv Hl Hu.
  destruct (visit_inner _ _ _ _ _ _ Hv Hl) as [(Hd & _)|(_ & -> & ->)]; [done|].
  split; [done|]. split.
  { rewrite assign_lookup_ne by lia. apply lookup_alloc_new. }
  split; [rewrite assign_length, length_app; simpl; lia|].
  intros l0 Hl0 Hne. rewrite assign_lookup_ne by done. by apply lookup_app_l.
Qed.

(** The iterations before the last never change a member that is there,
    and the walk along them ends on the container they reach. *)
Lemma vivify_frame inner : forall h l lit h1 v1,
  vivify h (VRef l) inner lit = (h1, Returned v1) ->
  Forall (fun l0 => l0 < length h) (trail h (VRef l) inner) ->
  length h <= length h1 /\
  walk h1 (VRef l) inner = v1 /\
  (forall l0, l0 < length h -> chain h1 l0 = chain h l0) /\
  (forall l0 k0, get h l0 k0 ≠ VUndef -> get h1 l0 k0 = get h l0 k0) /\
  (forall l0 k0, l0 < length h -> is_Some (find h l0 k0) ->
     is_Some (find h1 l0 k0)).
Proof.
  induction inner as [|k rest IH]; intros h l lit h1 v1 Hv Hvalid.
  - inversion Hv; subst. repeat split; done.
  - simpl in Hv, Hvalid. apply Forall_cons in Hvalid as [Hl Hvalid].
    destruct (visit h (VRef l) k false lit) as [ha [va| |]] eqn:Hvis; try done.
    destruct (visit_inner_frame _ _ _ _ _ _ Hvis Hl)
      as (Hlen & Hedge & Hdef & Hch & Hget & Hmono).
    destruct rest as [|k2 rest].
    { inversion Hv; subst. rewrite walk_cons. repeat split; done. }
    destruct va as [| | | | |la];
      try (simpl in Hv; by destruct (get ha _ _)).
    assert (Forall (fun l0 => l0 < length ha) (trail ha (VRef la) (k2 :: rest)))
      as Hvalid'.
    { destruct (decide (get h l k = VUndef)) as [Hu|Hd].
      - destruct (visit_inner_new _ _ _ _ _ _ Hvis Hl Hu) as ([= ->] & Hn & Hlen' & _).
        rewrite (trail_empty _ _ _ _ Hn). apply Forall_singleton. lia.
      - destruct (visit_inner _ _ _ _ _ _ Hvis Hl) as [(_ & -> & Hva)|(? & _)];
          [|done].
        by rewrite <- Hva in Hvalid. }
    destruct (IH _ _ _ _ _ Hv Hvalid') as (Hlen' & Hwalk & Hch' & Hget' & Hmono').
    split; [lia|]. split.
    { rewrite walk_cons. simpl getv. rewrite Hget', Hedge by (by rewrite Hedge).
      done. }
    split; [intros l0 Hl0; rewrite Hch' by lia; by apply Hch|].
    split.
    { intros l0 k0 Hd. rewrite Hget' by (by rewrite Hget). by apply Hget. }
    intros l0 k0 Hl0 Hs. apply Hmono'; [lia|]. by apply Hmono.
Qed.

Lemma vivify_cons h v k rest lit :
  vivify h v (k :: rest) lit =
  match visit h v k false lit with
  | (h', Returned v') => vivify h' v' rest lit
  | r => r
  end.
Proof. reflexivity. Qed.

(** From a container that has just been created on, every iteration creates
    the next one. *)
Lemma vivify_fresh rest : forall h n lit h1 v1,
  h !! n = Some (plain ∅) ->
  vivify h (VRef n) rest lit = (h1, Returned v1) ->
  (forall l0, l0 < length h -> l0 ≠ n -> h1 !! l0 = h !! l0) /\
  h1 !! n = Some (link h1 n rest) /\
  (forall q seg rest', rest = q ++ seg :: rest' ->
     exists c, walk h1 (VRef n) (q ++ [seg]) = VRef c /\ length h <= c /\
               h1 !! c = Some (link h1 c rest')).
Proof.
  induction rest as [|next rest IH]; intros h n lit h1 v1 Hn Hv.
  - inversion Hv; subst. split; [done|]. split; [done|].
    intros q seg rest' Hq. by destruct q.
  - rewrite vivify_cons in Hv.
    destruct (visit h (VRef n) next false lit) as [ha [va| |]] eqn:Hvis;
      try done.
    pose proof (lookup_lt_Some _ _ _ Hn) as Hlt.
    pose proof (get_empty _ _ next Hn) as Hu.
    destruct (visit_inner_new _ _ _ _ _ _ Hvis Hlt Hu)
      as (-> & Hnew & Hlen & Hfr).
    destruct (visit_inner _ _ _ _ _ _ Hvis Hlt) as [(Hd & _)|(_ & Hha & _)];
      [done|].
    assert (ha !! n = Some (plain {[ next := VRef (length h) ]})) as Hn'.
    { rewrite Hha.
      erewrite assign_lookup_eq by (by rewrite lookup_app_l).
      simpl. by rewrite insert_empty. }
    destruct (IH _ _ _ _ _ Hnew Hv) as (Hfr' & Hc' & Hpre).
    assert (h1 !! n = Some (plain {[ next := VRef (length h) ]})) as Hn1.
    { rewrite Hfr' by lia. done. }
    assert (get h1 n next = VRef (length h)) as Hedge.
    { unfold get. rewrite find_unfold, Hn1. simpl.
      by rewrite lookup_singleton_eq. }
    split.
    { intros l0 Hl0 Hne. rewrite Hfr' by lia. by apply Hfr. }
    split; [unfold link; by rewrite Hedge|].
    intros q seg rest' Hq. destruct q as [|q0 q].
    + simpl in Hq. inversion Hq; subst. exists (length h).
      change (walk h1 (VRef n) ([] ++ [seg])) with (get h1 n seg).
      split; [done|]. split; [lia|done].
    + simpl in Hq. inversion Hq; subst.
      destruct (Hpre q seg rest' eq_refl) as (c & Hw & Hle & Hc).
      exists c. split; [|split; [lia|done]].
      change ((q0 :: q) ++ [seg]) with (q0 :: (q ++ [seg])).
      rewrite walk_cons. simpl getv. by rewrite Hedge.
Qed.

Lemma walk_kept h h1 v parts :
  (forall l0 k0, get h l0 k0 ≠ VUndef -> get h1 l0 k0 = get h l0 k0) ->
  walk h v parts ≠ VUndef -> walk h1 v parts = walk h v parts.
Proof.
  intros Hget. induction parts as [|k parts IH] using rev_ind; [done|].
  rewrite !walk_snoc. intros Hd.
  destruct (walk h v parts) as [| | | | |c] eqn:Hw; try done.
  rewrite IH by done. simpl in *. by apply Hget.
Qed.

Lemma visit_inner_ref h v k lit h' v' rest next h1 v1 :
  visit h v k false lit = (h', Returned v') ->
  vivify h' v' (next :: rest) lit = (h1, Returned v1) ->
  exists l', v' = VRef l'.
Proof.
  intros _ Hv. rewrite vivify_cons in Hv.
  destruct v'; try done. eauto.
Qed.

Lemma vivify_cons_ref h v k rest lit h1 v1 :
  vivify h v (k :: rest) lit = (h1, Returned v1) -> exists l, v = VRef l.
Proof.
  rewrite vivify_cons. unfold visit. destruct v; try done. eauto.
Qed.

Lemma vivify_prefix inner : forall h l lit h1 v1,
  vivify h (VRef l) inner lit = (h1, Returned v1) ->
  Forall (fun l0 => l0 < length h) (trail h (VRef l) inner) ->
  forall q seg rest, inner = q ++ seg :: rest ->
  walk h (VRef l) (q ++ [seg]) = VUndef ->
  exists c, walk h1 (VRef l) (q ++ [seg]) = VRef c /\ length h <= c /\
            h1 !! c = Some (link h1 c rest).
Proof.
  induction inner as [|k inner IH]; intros h l lit h1 v1 Hv Hvalid q seg rest Hq Hw.
  { by destruct q. }
  destruct (vivify_frame _ _ _ _ _ _ Hv Hvalid) as (_ & _ & _ & Hget & _).
  rewrite vivify_cons in Hv. simpl in Hvalid.
  apply Forall_cons in Hvalid as [Hl Hvalid].
  destruct (visit h (VRef l) k false lit) as [ha [va| |]] eqn:Hvis; try done.
  destruct (visit_inner_frame _ _ _ _ _ _ Hvis Hl)
    as (Hlen & Hedge & Hdef & _ & Hget_a & _).
  destruct (decide (get h l k = VUndef)) as [Hu|Hd].
  - destruct (visit_inner_new _ _ _ _ _ _ Hvis Hl Hu) as (-> & Hn & Hlen' & _).
    destruct (vivify_fresh _ _ _ _ _ _ Hn Hv) as (_ & Hc & Hpre).
    assert (Forall (fun l0 => l0 < length ha) (trail ha (VRef (length h)) inner))
      as Hvalid'.
    { destruct inner; [done|]. rewrite (trail_empty _ _ _ _ Hn).
      apply Forall_singleton. lia. }
    destruct (vivify_frame _ _ _ _ _ _ Hv Hvalid') as (_ & _ & _ & Hget' & _).
    assert (get h1 l k = VRef (length h)) as He.
    { rewrite Hget' by (by rewrite Hedge). done. }
    destruct q as [|q0 q]; simpl in Hq; inversion Hq; subst.
    + exists (length h).
      change (walk h1 (VRef l) ([] ++ [seg])) with (get h1 l seg).
      split; [done|]. split; [lia|done].
    + destruct (Hpre q seg rest eq_refl) as (c & Hwc & Hle & Hcc).
      exists c. split; [|split; [lia|done]].
      change ((q0 :: q) ++ [seg]) with (q0 :: (q ++ [seg])).
      rewrite walk_cons. simpl getv. by rewrite He.
  - destruct (visit_inner _ _ _ _ _ _ Hvis Hl) as [(_ & -> & ->)|(? & _)];
      [|done].
    destruct q as [|q0 q]; simpl in Hq; inversion Hq; subst.
    { by change (walk h (VRef l) ([] ++ [seg])) with (get h l seg) in Hw. }
    change ((q0 :: q) ++ [seg]) with (q0 :: (q ++ [seg])) in *.
    rewrite walk_cons in *. simpl getv in *.
    rewrite (Hget _ _ Hd).
    assert (exists la, get h l q0 = VRef la) as [la Hg].
    { destruct q; simpl in Hv; by eapply vivify_cons_ref. }
    rewrite Hg in *. by eapply IH.
Qed.

End LoopFacts.

(** * Facts about a whole call *)

Section CallFacts.

Variable fires_on : string -> string -> bool.

Implicit Types (h : heap) (l t : loc) (k : string) (v : value) (s : state).

(** When the extension of [View] returns, the terminal container is an
    object whose [View] has Backbone's [extend]. *)
Lemma extend_view_returned h v ns h2 t :
  extend_view h v ns = (h2, Returned t) ->
  v = VRef t /\
  exists parent e,
    get h t "View" = VRef parent /\ get h parent "extend" = VRef e /\
    callable h (VRef e) = Some CExtend.
Proof.
  unfold extend_view, alloc. intros Hx.
  destruct v as [| | | | |t0]; try done.
  destruct (get h t0 "View") as [| | | | |parent] eqn:Hview; try done;
    simpl getv in Hx; cbn zeta in Hx; try (simpl in Hx; done).
  destruct (get h parent "extend") as [| | | | |e] eqn:Hext;
    try (simpl in Hx; done).
  destruct (callable _ (VRef e)) as [[| |]|] eqn:Hcall; try done.
  destruct (backbone_extend _ _ _) as [h4 child]. inversion Hx; subst.
  split; [done|]. exists parent, e. split; [done|]. split; [done|].
  simpl in Hcall |- *.
  destruct (decide (e < length h)) as [Hlt|Hge].
  - by rewrite !lookup_app_l in Hcall by (rewrite ?length_app; simpl; lia).
  - exfalso. destruct (decide (e < length h + 3)) as [Hlt|Hge'].
    + assert (e = length h \/ e = length h + 1 \/ e = length h + 2)
        as [-> | [-> | ->]] by lia.
      * rewrite lookup_app_l, lookup_app_l, lookup_alloc_new in Hcall;
          [done|rewrite ?length_app; simpl; lia..].
      * rewrite lookup_app_l, lookup_app_r in Hcall;
          [|rewrite ?length_app; simpl; lia..].
        by replace (length h + 1 - length (h ++ [_])) with 0 in Hcall
          by (rewrite length_app; simpl; lia).
      * rewrite lookup_app_r in Hcall by (rewrite ?length_app; simpl; lia).
        by replace (length h + 2 - length ((h ++ [_]) ++ [_])) with 0 in Hcall
          by (rewrite !length_app; simpl; lia).
    + rewrite lookup_ge_None_2 in Hcall; [done|].
      rewrite !length_app. simpl. lia.
Qed.

(** What a returning extension of [View] leaves in the store. *)
Lemma extend_view_facts h v ns h2 t :
  extend_view h v ns = (h2, Returned t) ->
  v = VRef t /\ t < length h /\
  exists parent,
    get h t "View" = VRef parent /\ parent < length h /\
    length h2 = length h + 5 /\
    get h2 t "View" = VRef (length h + 3) /\
    get h2 (length h + 3) "prototype" = VRef (length h + 4) /\
    get h2 (length h + 3) "__super__" = get h parent "prototype" /\
    callable h2 (VRef (length h + 3)) = Some (CClass parent) /\
    get h2 (length h + 4) "config" = VRef (length h + 1) /\
    get h2 (length h + 1) "namespace" = VRef (length h) /\
    get h2 (length h) "literal" = VStr (qualified ns) /\
    get h2 (length h) "object" = VRef t /\
    (forall l k, l < length h -> k ≠ "View" \/ t ∉ chain h l ->
       find h2 l k = find h l k) /\
    (forall l k, l < length h -> is_Some (find h l k) -> is_Some (find h2 l k)) /\
    (forall l, l < length h -> chain h2 l = chain h l).
Proof.
  intros Hx.
  destruct (extend_view_returned _ _ _ _ _ Hx) as (-> & parent & e & Hv & He & Hc).
  destruct (extend_view_spec _ _ ns _ _ Hv He Hc) as (h' & Heq & Hfacts).
  rewrite Hx in Heq. inversion Heq; subst h'.
  split; [done|]. split; [by eapply get_ref_lt|].
  exists parent. split; [done|]. split; [by eapply get_ref_lt|]. exact Hfacts.
Qed.

Lemma extend_view_key h v ns h2 t :
  extend_view h v ns = (h2, Returned t) ->
  getv h2 (getv h2 (getv h2 (getv h2 (get h2 t "View") "prototype") "config")
             "namespace") "literal" = VStr (qualified ns).
Proof.
  intros Hx. destruct (extend_view_facts _ _ _ _ _ Hx)
    as (_ & _ & parent & _ & _ & _ & Hview & Hp & _ & _ & Hc & Hn & Hl & _).
  rewrite Hview. simpl. rewrite Hp. simpl. rewrite Hc. simpl.
  rewrite Hn. simpl. exact Hl.
Qed.

(** A call returns exactly when its loop and the extension of [View]
    return; the registry and the bus are then updated under the qualified
    name. *)
Lemma namespace_returned p literal s v s' :
  namespace fires_on p literal s = (Returned v, s') ->
  exists h1 t h2,
    descend (supplied (st_heap s) literal).1 (VRef (st_root s))
            (path_parts p) (supplied (st_heap s) literal).2
      = (h1, Returned (VRef t)) /\
    extend_view h1 (VRef t) p = (h2, Returned t) /\
    v = VRef t /\
    s' = record_and_signal fires_on s h2 t (qualified p)
           (get (st_heap s) (st_root s) "pool").
Proof.
  unfold namespace. destruct (supplied (st_heap s) literal) as [h0 lit].
  destruct (descend _ _ _ _) as [h1 [vf| |]] eqn:Hd; try done.
  destruct (extend_view h1 vf p) as [h2 [t| |]] eqn:Hx; try done.
  rewrite (extend_view_key _ _ _ _ _ Hx).
  destruct (extend_view_facts _ _ _ _ _ Hx) as (-> & _).
  intros [= <- <-]. by exists h1, t, h2.
Qed.

Lemma namespace_run p literal s h1 vf h2 t :
  descend (supplied (st_heap s) literal).1 (VRef (st_root s))
          (path_parts p) (supplied (st_heap s) literal).2
    = (h1, Returned vf) ->
  extend_view h1 vf p = (h2, Returned t) ->
  namespace fires_on p literal s =
    (Returned (VRef t),
     record_and_signal fires_on s h2 t (qualified p)
       (get (st_heap s) (st_root s) "pool")).
Proof.
  intros Hd Hx. unfold namespace.
  destruct (supplied (st_heap s) literal) as [h0 lit]. simpl in Hd.
  by rewrite Hd, Hx, (extend_view_key _ _ _ _ _ Hx).
Qed.

(** A raise leaves everything but the store as it was. *)
Lemma namespace_threw p literal s s' :
  namespace fires_on p literal s = (Threw, s') ->
  exists h', s' = with_heap s h'.
Proof.
  unfold namespace. destruct (supplied (st_heap s) literal) as [h0 lit].
  destruct (descend _ _ _ _) as [h1 [vf| |]] eqn:Hd; try done.
  - destruct (extend_view h1 vf p) as [h2 [t| |]] eqn:Hx; try done.
    + by rewrite (extend_view_key _ _ _ _ _ Hx).
    + intros [= <-]. by exists h2.
  - intros [= <-]. by exists h1.
Qed.

Lemma record_and_signal_facts s h t key pool :
  let s' := record_and_signal fires_on s h t key pool in
  st_heap s' = h ++ [plain {[ "object" := VRef t ]}] /\
  st_root s' = st_root s /\
  st_registry s' = <[key := length h]> (st_registry s) /\
  st_handlers s' = st_handlers s /\
  st_log s' = st_log s ++
    emitted fires_on (st_handlers s) pool ("ready." +:+ key)
            (h ++ [plain {[ "object" := VRef t ]}]).
Proof.
  unfold record_and_signal, alloc, jq_trigger, emitted.
  destruct pool; simpl; rewrite ?app_nil_r; done.
Qed.

Lemma calls_of_others cb hs b name seen :
  Forall (fun hd => hd_callback hd ≠ cb) hs ->
  calls_of cb (map (fun hd => Call (hd_callback hd) name seen)
                   (reached fires_on hs b name)) = [].
Proof.
  unfold calls_of, reached. induction 1 as [|hd hs Hne _ IH]; [done|].
  rewrite filter_cons. destruct (decide _); [|done].
  rewrite map_cons, filter_cons. simpl.
  by destruct (decide (hd_callback hd = cb)).
Qed.

Lemma calls_of_emitted_new cb hs b name seen :
  (forall e, fires_on e e = true) ->
  Forall (fun hd => hd_callback hd ≠ cb) hs ->
  calls_of cb (emitted fires_on (hs ++ [Handler b name cb]) (VRef b) name seen)
  = [Call cb name seen].
Proof.
  intros Hrefl Hfresh.
  pose proof (calls_of_others cb hs b name seen Hfresh) as Ho.
  unfold emitted, calls_of, reached in *.
  rewrite filter_app, map_app, filter_app, Ho. simpl.
  rewrite filter_cons. simpl. rewrite Hrefl.
  destruct (decide _) as [_|Hno]; [|by destruct Hno].
  rewrite filter_nil. simpl. rewrite filter_cons. simpl.
  destruct (decide (cb = cb)); [|done]. by rewrite filter_nil.
Qed.

End CallFacts.

(** * Facts about a registration on a clear path *)

Section PathFacts.

Implicit Types (h : heap) (l t lit : loc) (k : string) (v : value).

#[local] Arguments visit : simpl never.

Lemma descend_one h v k lit :
  descend h v [k] lit = visit h v k true lit.
Proof. simpl. by destruct (visit h v k true lit) as [h' [v'| |]]. Qed.

Lemma descend_more h v k k2 rest lit :
  descend h v (k :: k2 :: rest) lit =
  match visit h v k false lit with
  | (h', Returned v') => descend h' v' (k2 :: rest) lit
  | r => r
  end.
Proof. reflexivity. Qed.

Lemma descend_cons_ref h v k rest lit h1 v1 :
  descend h v (k :: rest) lit = (h1, Returned v1) -> exists l, v = VRef l.
Proof.
  simpl. unfold visit. destruct v; try done. eauto.
Qed.

(** While the target stays where it is, the merge is a copy into it. *)
Lemma merge_keys_copy keys : forall h l k lit T,
  get h l k = VRef T -> T ∉ chain h l ->
  merge_keys h l k lit keys = (copy_keys h T lit keys, true).
Proof.
  induction keys as [|key keys IH]; intros h l k lit T Hg Hoff; [done|].
  cbn [merge_keys]. rewrite Hg, copy_keys_cons. apply IH.
  - unfold get in *. by rewrite find_assign_off.
  - by rewrite chain_assign.
Qed.

Lemma merge_keys_nonref keys h l k lit h' :
  (forall T, get h l k ≠ VRef T) ->
  merge_keys h l k lit keys = (h', true) -> h' = h /\ keys = [].
Proof.
  intros Hn. destruct keys as [|key keys]; simpl; [by intros [= <-]|].
  destruct (get h l k); try done. by destruct (Hn l0).
Qed.

(** The last iteration on a clear path, followed by the extension. *)
Lemma last_visit_spec h l k lit h1 vf ns h2 t :
  visit h (VRef l) k true lit = (h1, Returned vf) ->
  extend_view h1 vf ns = (h2, Returned t) ->
  lit < length h -> l < length h ->
  terminal h l [k] lit ∉ chain h l ->
  t = terminal h l [k] lit /\
  get h2 l k = VRef t /\
  length h <= length h2 /\
  (forall key, is_Some (find h lit key) -> is_Some (find h2 t key)) /\
  (forall l0 k0, get h l0 k0 ≠ VUndef -> t ∉ chain h l0 ->
     get h2 l0 k0 = get h l0 k0) /\
  (forall l0, l0 < length h -> chain h2 l0 = chain h l0) /\
  (forall l0 k0, l0 < length h -> is_Some (find h l0 k0) ->
     is_Some (find h2 l0 k0)) /\
  (forall T, get h l k = VRef T -> forall key, key ≠ "View" ->
     get h2 T key = if has h lit key then get h lit key else get h T key).
Proof.
  unfold terminal, walk. simpl fold_left.
  intros Hv Hx Hlit Hl Hoff.
  destruct (extend_view_facts _ _ _ _ _ Hx)
    as (-> & Ht & parent & _ & _ & Hlen & _ & _ & _ & _ & _ & _ & _ & _ &
        Hframe & Hmono & Hchain).
  unfold visit in Hv.
  destruct (get h l k) as [| | | | |T] eqn:Hcur.
  - (* the path is new: the literal becomes the terminal container *)
    assert (get (assign h l k (VRef lit)) l k = VRef lit) as Hedge.
    { unfold get. by rewrite find_assign_eq. }
    injection Hv as <- Hvt. rewrite Hedge in Hvt.
    assert (t = lit) as -> by congruence. clear Hvt.
    rewrite assign_length in *.
    split; [done|]. split.
    { unfold get. rewrite Hframe; [exact Hedge|done|].
      right. by rewrite chain_assign. }
    split; [lia|]. split.
    { intros key Hs. apply Hmono; [done|]. by apply find_assign_mono. }
    split.
    { intros l0 k0 Hd Hoff0.
      assert (l0 < length h) as Hl0.
      { unfold get in Hd. destruct (find h l0 k0) eqn:Hf; [|done].
        by eapply find_Some_lt. }
      unfold get at 1. rewrite Hframe; [|done|right; by rewrite chain_assign].
      by apply get_assign_undef. }
    split; [intros l0 Hl0; by rewrite Hchain, chain_assign|].
    split.
    { intros l0 k0 Hl0 Hs. apply Hmono; [done|]. by apply find_assign_mono. }
    intros T HT. done.
  - destruct (merge_keys _ _ _ _ _) as [h' [|]] eqn:Hm; [|done].
    apply merge_keys_nonref in Hm as [-> _]; [|by rewrite Hcur].
    injection Hv as <- Hvt. congruence.
  - destruct (merge_keys _ _ _ _ _) as [h' [|]] eqn:Hm; [|done].
    apply merge_keys_nonref in Hm as [-> _]; [|by rewrite Hcur].
    injection Hv as <- Hvt. congruence.
  - destruct (merge_keys _ _ _ _ _) as [h' [|]] eqn:Hm; [|done].
    apply merge_keys_nonref in Hm as [-> _]; [|by rewrite Hcur].
    injection Hv as <- Hvt. congruence.
  - destruct (merge_keys _ _ _ _ _) as [h' [|]] eqn:Hm; [|done].
    apply merge_keys_nonref in Hm as [-> _]; [|by rewrite Hcur].
    injection Hv as <- Hvt. congruence.
  - (* the path is there: the literal is merged into its container *)
    rewrite (merge_keys_copy _ _ _ _ _ T Hcur Hoff) in Hv.
    fold (copy_members h T lit) in Hv.
    injection Hv as <- Hvt.
    rewrite copy_members_length in *.
    assert (forall l0 k0, T ∉ chain h l0 ->
              find (copy_members h T lit) l0 k0 = find h l0 k0) as Hoffc.
    { intros l0 k0 Ho. by apply copy_keys_off. }
    assert (t = T) as ->.
    { unfold get in Hvt, Hcur. rewrite Hoffc in Hvt by done. congruence. }
    clear Hvt.
    assert (forall l0, chain (copy_members h T lit) l0 = chain h l0) as Hcc.
    { intros l0. apply copy_keys_chain. }
    split; [done|]. split.
    { unfold get. rewrite Hframe; [|done|right; by rewrite Hcc].
      rewrite Hoffc by done. exact Hcur. }
    split; [lia|]. split.
    { intros key Hs. apply Hmono; [done|].
      by rewrite copy_members_value. }
    split.
    { intros l0 k0 Hd Hoff0.
      assert (l0 < length h) as Hl0.
      { unfold get in Hd. destruct (find h l0 k0) eqn:Hf; [|done].
        by eapply find_Some_lt. }
      unfold get. rewrite Hframe; [|done|right; by rewrite Hcc].
      by rewrite Hoffc. }
    split; [intros l0 Hl0; by rewrite Hchain, Hcc|].
    split.
    { intros l0 k0 Hl0 Hs. apply Hmono; [done|]. by apply copy_keys_mono. }
    intros T' [= <-] key Hkey. unfold get at 1.
    rewrite Hframe by auto. unfold has.
    destruct (find h lit key) as [x|] eqn:Hf.
    + rewrite bool_decide_eq_true_2 by eauto.
      rewrite copy_members_value by (done || eauto).
      unfold get. by rewrite Hf.
    + rewrite bool_decide_eq_false_2 by (by intros [? ?]).
      by rewrite copy_members_other.
Qed.

Lemma terminal_cons h l k la parts lit :
  get h l k = VRef la -> terminal h l (k :: parts) lit = terminal h la parts lit.
Proof. intros Hg. unfold terminal. rewrite walk_cons. simpl. by rewrite Hg. Qed.

Lemma terminal_new h l k parts lit :
  get h l k = VUndef -> terminal h l (k :: parts) lit = lit.
Proof.
  intros Hg. unfold terminal. rewrite walk_cons. simpl.
  by rewrite Hg, walk_undef.
Qed.

(** A registration on a clear path: the loop and the extension of [View]
    together. *)
Lemma descend_extend_spec parts : forall h l lit h1 vf ns h2 t,
  parts ≠ [] ->
  descend h (VRef l) parts lit = (h1, Returned vf) ->
  extend_view h1 vf ns = (h2, Returned t) ->
  lit < length h ->
  (forall c, c ∈ trail h (VRef l) parts ->
     c < length h /\ terminal h l parts lit ∉ chain h c) ->
  t = terminal h l parts lit /\
  walk h2 (VRef l) parts = VRef t /\
  length h <= length h2 /\
  (forall key, is_Some (find h lit key) -> is_Some (find h2 t key)) /\
  (forall l0 k0, get h l0 k0 ≠ VUndef -> t ∉ chain h l0 ->
     get h2 l0 k0 = get h l0 k0) /\
  (forall l0, l0 < length h -> chain h2 l0 = chain h l0) /\
  (forall l0 k0, l0 < length h -> is_Some (find h l0 k0) ->
     is_Some (find h2 l0 k0)) /\
  (forall T, walk h (VRef l) parts = VRef T -> forall key, key ≠ "View" ->
     get h2 T key = if has h lit key then get h lit key else get h T key).
Proof.
  induction parts as [|k parts IH]; intros h l lit h1 vf ns h2 t Hne Hd Hx Hlit Hclear;
    [done|].
  destruct parts as [|k2 rest].
  { rewrite descend_one in Hd.
    destruct (Hclear l) as [Hl Hoff]; [simpl; left|].
    by eapply last_visit_spec. }
  rewrite descend_more in Hd.
  destruct (Hclear l) as [Hl Hoff]; [simpl; left|].
  destruct (visit h (VRef l) k false lit) as [ha [va| |]] eqn:Hvis; try done.
  destruct (descend_cons_ref _ _ _ _ _ _ _ Hd) as [la ->].
  destruct (visit_inner_frame _ _ _ _ _ _ Hvis Hl)
    as (Hlen & Hedge & Hdef & Hch & Hget & Hmono).
  assert (terminal ha la (k2 :: rest) lit = terminal h l (k :: k2 :: rest) lit
          /\ forall c, c ∈ trail ha (VRef la) (k2 :: rest) ->
                c < length ha /\ terminal h l (k :: k2 :: rest) lit ∉ chain ha c)
    as [Hterm Hclear'].
  { destruct (decide (get h l k = VUndef)) as [Hu|Hd'].
    - destruct (visit_inner_new _ _ _ _ _ _ Hvis Hl Hu) as ([= ->] & Hn & Hlen' & _).
      rewrite (terminal_new h) by done.
      split; [apply terminal_new; by apply get_empty|].
      rewrite (trail_empty _ _ _ _ Hn). intros c ->%list_elem_of_singleton.
      split; [lia|]. rewrite chain_unfold, Hn. simpl.
      intros ->%list_elem_of_singleton. lia.
    - destruct (visit_inner _ _ _ _ _ _ Hvis Hl) as [(_ & -> & Hva)|(? & _)];
        [|done].
      split; [symmetry; by apply terminal_cons|].
      intros c Hc. apply Hclear.
      change (trail h (VRef l) (k :: k2 :: rest))
        with (l :: trail h (get h l k) (k2 :: rest)).
      rewrite Hedge. by right. }
  rewrite <- Hterm in Hclear'.
  destruct (IH ha la lit h1 vf ns h2 t ltac:(done) Hd Hx ltac:(lia) Hclear')
    as (Ht & Hwalk & Hlen2 & Hhas & Hfr & Hchain & Hmono2 & Hval).
  rewrite Hterm in Ht.
  assert (get h2 l k = VRef la) as Hedge2.
  { rewrite Hfr; [done|by rewrite Hedge|].
    rewrite Hch by done. by rewrite Ht. }
  split; [done|]. split.
  { rewrite walk_cons. simpl getv. by rewrite Hedge2. }
  split; [lia|]. split.
  { intros key Hs. apply Hhas. by apply Hmono. }
  split.
  { intros l0 k0 Hd0 Hoff0.
    assert (l0 < length h) as Hl0.
    { unfold get in Hd0. destruct (find h l0 k0) eqn:Hf; [|done].
      by eapply find_Some_lt. }
    rewrite Hfr; [by apply Hget|by rewrite Hget|by rewrite Hch]. }
  split; [intros l0 Hl0; rewrite Hchain by lia; by apply Hch|].
  split.
  { intros l0 k0 Hl0 Hs. apply Hmono2; [lia|]. by apply Hmono. }
  intros T HT key Hkey.
  rewrite walk_cons in HT. simpl getv in HT.
  destruct (decide (get h l k = VUndef)) as [Hu|Hd'].
  { by rewrite Hu, walk_undef in HT. }
  destruct (visit_inner _ _ _ _ _ _ Hvis Hl) as [(_ & -> & Hva)|(? & _)];
    [|done].
  rewrite <- Hva in HT. by apply Hval.
Qed.

Lemma clear_path_spec h root parts lit :
  clear_path h root parts lit = true ->
  lit < length h /\
  forall c, c ∈ trail h (VRef root) parts ->
    c < length h /\ terminal h root parts lit ∉ chain h c.
Proof.
  unfold clear_path. intros [Hlit Hall]%andb_true_iff.
  apply bool_decide_eq_true in Hlit. split; [done|].
  intros c Hc. rewrite forallb_forall in Hall.
  apply list_elem_of_In, Hall, andb_true_iff in Hc as [H1 H2].
  by apply bool_decide_eq_true in H1, H2.
Qed.

Lemma split_dot_nonempty p : split_dot p ≠ [].
Proof.
  induction p as [|c p IH]; [done|]. simpl.
  destruct (Ascii.eqb c "."); [done|]. by destruct (split_dot p).
Qed.

Lemma path_parts_nonempty p : p ≠ "" -> path_parts p = split_dot p.
Proof. intros Hp. unfold path_parts. by destruct (decide (p = "")). Qed.

Lemma walk_alloc h o v parts :
  walk h v parts ≠ VUndef -> walk (h ++ [o]) v parts = walk h v parts.
Proof.
  apply walk_kept. intros l0 k0 Hd. unfold get in *.
  destruct (find h l0 k0) eqn:Hf; [|done].
  rewrite find_alloc; [by rewrite Hf|by eapply find_Some_lt].
Qed.

Lemma has_true h l k : has h l k = true <-> is_Some (find h l k).
Proof. unfold has. apply bool_decide_eq_true. Qed.

(** A returning call on a clear, non-empty path, seen from outside. *)
Lemma registration_on_clear_path (fires_on : string -> string -> bool)
    p lit (s s' : state) v :
  p ≠ "" ->
  namespace fires_on p (Some lit) s = (Returned v, s') ->
  clear_path (st_heap s) (st_root s) (split_dot p) lit = true ->
  exists t,
    v = VRef t /\
    t = terminal (st_heap s) (st_root s) (split_dot p) lit /\
    st_root s' = st_root s /\
    walk (st_heap s') (VRef (st_root s)) (split_dot p) = VRef t /\
    (forall key, is_Some (find (st_heap s) lit key) ->
       is_Some (find (st_heap s') t key)) /\
    (forall l0 k0, l0 < length (st_heap s) ->
       is_Some (find (st_heap s) l0 k0) -> is_Some (find (st_heap s') l0 k0)) /\
    (forall T, walk (st_heap s) (VRef (st_root s)) (split_dot p) = VRef T ->
       forall key, key ≠ "View" ->
       get (st_heap s') T key =
         if has (st_heap s) lit key then get (st_heap s) lit key
         else get (st_heap s) T key).
Proof.
  intros Hp (h1 & t & h2 & Hd & Hx & -> & ->)%namespace_returned Hclear.
  rewrite path_parts_nonempty in Hd by done. simpl in Hd.
  apply clear_path_spec in Hclear as [Hlit Hclear].
  destruct (descend_extend_spec _ _ _ _ _ _ _ _ _ (split_dot_nonempty p)
              Hd Hx Hlit Hclear)
    as (Ht & Hwalk & Hlen & Hhas & _ & _ & Hmono & Hval).
  destruct (record_and_signal_facts fires_on s h2 t (qualified p)
              (get (st_heap s) (st_root s) "pool")) as (Hheap & Hroot & _).
  rewrite Hheap, Hroot.
  assert (forall l0 k0, is_Some (find h2 l0 k0) ->
            find (h2 ++ [plain {[ "object" := VRef t ]}]) l0 k0 = find h2 l0 k0)
    as Hold.
  { intros l0 k0 [x Hf]. apply find_alloc. by eapply find_Some_lt. }
  exists t. split; [done|]. split; [done|]. split; [done|]. split.
  { rewrite walk_alloc by (by rewrite Hwalk). done. }
  split.
  { intros key Hs. rewrite Hold by auto. auto. }
  split.
  { intros l0 k0 Hl0 Hs. rewrite Hold by auto. auto. }
  intros T HT key Hkey. rewrite <- (Hval T HT key Hkey).
  destruct (extend_view_facts _ _ _ _ _ Hx) as (_ & Htlt & _ & _ & _ & Hlen2 & _).
  assert (T = t) as -> by (unfold terminal in Ht; by rewrite HT in Ht).
  unfold get. rewrite find_alloc; [done|lia].
Qed.

End PathFacts.

(** * Properties of the registrar and the notifier *)








(** C4, as the code has it: [ready] looks its argument up in the registry,
    whose keys are fully-qualified names.  After [namespace(p, ...)] has
    returned, [ready] called with the qualified name of [p] invokes the
    callback inside the call, exactly once, observing the store as it is,
    and binds nothing. *)
Theorem ready_after_register (fires_on : string -> string -> bool)
    (p : string) (literal : option loc) (s s1 : state) (v : value) (cb : cbid) :
  namespace fires_on p literal s = (Returned v, s1) ->
  ready (qualified p) cb s1 =
    State (st_heap s1) (st_root s1) (st_registry s1) (st_handlers s1)
          (st_log s1 ++ [Call cb ("ready." +:+ qualified p) (st_heap s1)]).
Proof.
  intros (h1 & t & h2 & _ & _ & _ & ->)%namespace_returned.
  destruct (record_and_signal_facts fires_on s h2 t (qualified p)
              (get (st_heap s) (st_root s) "pool")) as (_ & _ & Hreg & _).
  unfold ready. rewrite Hreg. by rewrite lookup_insert_eq.
Qed.

Lemma ready_after_register_witness :
  let s := (literal page with_view).1 in
  let m := (literal page with_view).2 in
  let r := namespace exact_name "a" (Some m) s in
  r = (Returned (VRef m), r.2) /\
  st_log (ready "bloomberg.a" 8 r.2) =
    st_log r.2 ++ [Call 8 "ready.bloomberg.a" (st_heap r.2)].
Proof.
  intros s m r.
  assert (r = (Returned (VRef m), r.2)) as Hr by (vm_compute; reflexivity).
  split; [exact Hr|].
  change "bloomberg.a" with (qualified "a").
  by rewrite (ready_after_register exact_name "a" (Some m) s r.2 (VRef m) 8 Hr).
Defined.

(** After [namespace("a", ...)] has returned, [ready("a", cb)] does not
    invoke [cb]: the registry has no key ["a"], the callback is bound for a
    later ["ready.a"]. *)
Lemma ready_with_bare_path_is_deferred :
  let s := (literal page with_view).1 in
  let m := (literal page with_view).2 in
  let r := namespace exact_name "a" (Some m) s in
  r.1 = Returned (VRef m) /\
  st_log (ready "a" 8 r.2) = st_log r.2 /\
  calls_of 8 (st_log (ready "a" 8 r.2)) = [].
Proof. vm_compute. repeat split; reflexivity. Qed.




(** C8, as the code has it: with the empty path the loop has no segment to
    visit, so the root container is the terminal container and the members
    of [m] are not merged at all.  When the call returns, it returns the
    root; every member of the root but [View] reads as before; the registry
    gains the entry for the root name alone, holding the root; and
    ["ready." + root name] is emitted. *)
Theorem register_root (fires_on : string -> string -> bool)
    (literal : option loc) (s s' : state) (v : value) :
  namespace fires_on "" literal s = (Returned v, s') ->
  v = VRef (st_root s) /\
  (forall k, k ≠ "View" ->
     get (st_heap s') (st_root s) k = get (st_heap s) (st_root s) k) /\
  (exists entry,
     st_registry s' = <[rootObject := entry]> (st_registry s) /\
     get (st_heap s') entry "object" = VRef (st_root s)) /\
  st_handlers s' = st_handlers s /\
  st_log s' = st_log s ++
    emitted fires_on (st_handlers s) (get (st_heap s) (st_root s) "pool")
            ("ready." +:+ rootObject) (st_heap s').
Proof.
  intros (h1 & t & h2 & Hd & Hx & -> & ->)%namespace_returned.
  change (path_parts "") with (@nil string) in Hd. simpl in Hd.
  inversion Hd; subst h1 t. clear Hd.
  change (qualified "") with rootObject.
  destruct (record_and_signal_facts fires_on s h2 (st_root s) rootObject
              (get (st_heap s) (st_root s) "pool"))
    as (Hheap & _ & Hreg & Hhs & Hlog).
  destruct (extend_view_facts _ _ _ _ _ Hx)
    as (_ & Hroot & parent & Hview & _ & Hlen & _ & _ & _ & _ & _ & _ & _ & _ &
        Hframe & _).
  set (h0 := (supplied (st_heap s) literal).1) in *.
  assert (forall k, find h0 (st_root s) k = find (st_heap s) (st_root s) k) as H0.
  { intros k. unfold h0. destruct literal as [l|]; [done|]. simpl.
    destruct (decide (st_root s < length (st_heap s))) as [Hlt|Hge].
    - by apply find_alloc.
    - exfalso. unfold h0 in Hroot, Hview. simpl in Hroot, Hview.
      rewrite length_app in Hroot. simpl in Hroot.
      assert (st_root s = length (st_heap s)) as Heq by lia.
      rewrite Heq in Hview.
      by rewrite (get_empty _ _ _ (lookup_alloc_new _ _)) in Hview. }
  split; [done|]. split.
  { intros k Hk. rewrite Hheap. unfold get.
    rewrite find_alloc by lia. rewrite Hframe by auto. by rewrite H0. }
  split.
  { exists (length h2). split; [done|]. rewrite Hheap. unfold get.
    erewrite find_alloc_new; [done|]. apply lookup_singleton_eq. }
  split; [done|]. by rewrite Hlog, Hheap.
Qed.

Lemma register_root_witness :
  let s := (literal page with_x).1 in
  let m := (literal page with_x).2 in
  let r := namespace exact_name "" (Some m) s in
  r = (Returned (VRef (st_root s)), r.2) /\
  get (st_heap r.2) (st_root s) "pool" = get (st_heap s) (st_root s) "pool".
Proof.
  intros s m r.
  assert (r = (Returned (VRef (st_root s)), r.2)) as Hr
    by (vm_compute; reflexivity).
  split; [exact Hr|].
  destruct (register_root exact_name (Some m) s r.2 (VRef (st_root s)) Hr)
    as (_ & Hkeep & _).
  by apply Hkeep.
Defined.

(** [namespace("", {x: 1})] on the page returns the root, and the root has
    no member [x]: [m] has not been merged into it. *)
Lemma register_root_ignores_members :
  let s := (literal page with_x).1 in
  let m := (literal page with_x).2 in
  let r := namespace exact_name "" (Some m) s in
  r.1 = Returned (VRef (st_root s)) /\
  has (st_heap s) m "x" = true /\
  has (st_heap r.2) (st_root s) "x" = false.
Proof. vm_compute. repeat split; reflexivity. Qed.










(** The example of the specification, as a script: the first call raises,
    the second is not reached, and the container at ["shop.cart"] has no
    [currency]. *)
Lemma example_of_the_specification_raises :
  let s0 := (two_literals cart_total cart_currency).1.1 in
  let m1 := (two_literals cart_total cart_currency).1.2 in
  let m2 := (two_literals cart_total cart_currency).2 in
  let r := and_then (namespace exact_name "shop.cart" (Some m1))
                    (namespace exact_name "shop.cart" (Some m2)) s0 in
  r.1 = Threw /\
  getv (st_heap r.2) (walk (st_heap r.2) (VRef (st_root s0)) (split_dot "shop.cart"))
       "currency" = VUndef.
Proof. vm_compute. split; reflexivity. Qed.




(** * Splitting and joining *)

Section SplitJoin.

Implicit Types (s x : string) (c sep : ascii) (parts : list string).

Lemma split_dot_is_split_on s : split_dot s = split_on "."%char s.
Proof. induction s as [|c s IH]; [done|]. simpl. by rewrite IH. Qed.

Lemma split_on_nonempty sep s : split_on sep s ≠ [].
Proof.
  induction s as [|c s IH]; [done|]. simpl.
  destruct (Ascii.eqb c sep); [done|]. by destruct (split_on sep s).
Qed.

Lemma join_with_cons (d : string) x y rest :
  join_with d (x :: y :: rest) = x +:+ d +:+ join_with d (y :: rest).
Proof. reflexivity. Qed.

Lemma join_split sep s : join_with (String sep "") (split_on sep s) = s.
Proof.
  induction s as [|c s IH]; [done|]. simpl split_on.
  pose proof (split_on_nonempty sep s) as Hne.
  destruct (Ascii.eqb_spec c sep) as [->|Hc].
  - destruct (split_on sep s) as [|y rest] eqn:Hs; [done|].
    rewrite join_with_cons, IH. done.
  - destruct (split_on sep s) as [|y rest] eqn:Hs; [done|].
    destruct rest as [|z rest].
    + simpl in *. by rewrite IH.
    + rewrite join_with_cons in *. rewrite <- IH. reflexivity.
Qed.

Lemma split_on_clean sep x : occurs sep x = false -> split_on sep x = [x].
Proof.
  induction x as [|c x IH]; [done|]. simpl.
  intros [Hc Hx]%orb_false_iff. rewrite Hc. by rewrite IH.
Qed.

Lemma split_on_app sep x s :
  occurs sep x = false ->
  split_on sep (x +:+ String sep s) = x :: split_on sep s.
Proof.
  induction x as [|c x IH]; simpl.
  - intros _. by rewrite Ascii.eqb_refl.
  - intros [Hc Hx]%orb_false_iff. rewrite Hc. by rewrite IH.
Qed.

Lemma split_join sep parts :
  parts ≠ [] -> Forall (fun x => occurs sep x = false) parts ->
  split_on sep (join_with (String sep "") parts) = parts.
Proof.
  induction parts as [|x rest IH]; [done|]. intros _ Hall.
  apply Forall_cons in Hall as [Hx Hrest].
  destruct rest as [|y rest]; [by apply split_on_clean|].
  rewrite join_with_cons.
  change (String sep "" +:+ join_with (String sep "") (y :: rest))
    with (String sep (join_with (String sep "") (y :: rest))).
  rewrite split_on_app by done. by rewrite IH.
Qed.

End SplitJoin.

Section Paths.

Implicit Types (s x p : string) (parts : list string).

Lemma join_with_empty (d : string) parts :
  d ≠ "" -> join_with d parts = "" -> parts = [] \/ parts = [""].
Proof.
  intros Hd. destruct parts as [|x [|y rest]]; [by left| |].
  - simpl. intros ->. by right.
  - rewrite join_with_cons. destruct x; [|done]. simpl.
    destruct d; [done|]. done.
Qed.

Lemma occurs_split_on c (sep : ascii) s :
  occurs c s = false -> Forall (fun x => occurs c x = false) (split_on sep s).
Proof.
  induction s as [|d s IH]; simpl; [by repeat constructor|].
  intros [Hd Hs]%orb_false_iff. specialize (IH Hs).
  destruct (Ascii.eqb d sep); [by constructor|].
  destruct (split_on sep s) as [|y rest]; simpl.
  - repeat constructor. simpl. by rewrite Hd.
  - apply Forall_cons in IH as [Hy Hrest]. constructor; [|done].
    simpl. by rewrite Hd, Hy.
Qed.

Lemma split_on_free (sep : ascii) s :
  Forall (fun x => occurs sep x = false) (split_on sep s).
Proof.
  induction s as [|d s IH]; simpl; [by repeat constructor|].
  destruct (Ascii.eqb d sep) eqn:Hd; [by constructor|].
  destruct (split_on sep s) as [|y rest]; simpl.
  - repeat constructor. simpl. by rewrite Hd.
  - apply Forall_cons in IH as [Hy Hrest]. constructor; [|done].
    simpl. by rewrite Hd, Hy.
Qed.


(** X2: conversely, a non-empty list of dot-free segments other than the
    single empty segment is what [namespace] walks for their dotted path,
    and every segment [namespace] walks is dot-free: a path determines its
    segments and the segments their path. *)
Theorem path_parts_of_join (parts : list string) :
  parts ≠ [] -> parts ≠ [""] ->
  Forall (fun x => occurs "."%char x = false) parts ->
  path_parts (join_with "." parts) = parts /\
  Forall (fun x => occurs "."%char x = false)
         (path_parts (join_with "." parts)).
Proof.
  intros Hne Hne' Hall.
  assert (path_parts (join_with "." parts) = parts) as Heq.
  { unfold path_parts. destruct (decide _) as [He|_].
    - apply join_with_empty in He as [?|?]; done.
    - rewrite split_dot_is_split_on. by apply split_join. }
  split; [done|]. by rewrite Heq.
Qed.

Lemma path_parts_of_join_witness :
  ["shop"; "cart"] ≠ [] /\ ["shop"; "cart"] ≠ [""] /\
  path_parts (join_with "." ["shop"; "cart"]) = ["shop"; "cart"].
Proof.
  assert (["shop"; "cart"] ≠ @nil string) as H1 by done.
  assert (["shop"; "cart"] ≠ [""]) as H2 by done.
  assert (Forall (fun x => occurs "."%char x = false) ["shop"; "cart"]) as H3
    by (by repeat constructor).
  split; [exact H1|]. split; [exact H2|].
  exact (proj1 (path_parts_of_join ["shop"; "cart"] H1 H2 H3)).
Defined.

Lemma search_tokens_cons c text :
  search_tokens (String c text) = String (plus_for_space c) (search_tokens text).
Proof.
  unfold search_tokens, plus_for_space. simpl split_on.
  pose proof (split_on_nonempty " "%char text) as Hne.
  destruct (Ascii.eqb c " ").
  - destruct (split_on " "%char text) as [|y rest]; [done|].
    by rewrite join_with_cons.
  - destruct (split_on " "%char text) as [|y rest]; [done|].
    destruct rest as [|z rest]; [done|]. by rewrite !join_with_cons.
Qed.

(** X3: on the Enter key the search handler sends the browser to the search
    address followed by the text of the box in which every space has become
    a [+] and every other character is unchanged (nothing else is encoded
    or trimmed): the query has the length of the text and no space; on any
    other key the location stays as it is. *)
Theorem search_keyup_location (text location : string) :
  (forall which, which ≠ 13%Z -> search_keyup which text location = location) /\
  exists query,
    search_keyup 13 text location =
      "http://www.businessweek.com/search?q=" +:+ query /\
    list_ascii_of_string query =
      map plus_for_space (list_ascii_of_string text) /\
    String.length query = String.length text /\
    occurs " "%char query = false.
Proof.
  split.
  { intros which Hw. unfold search_keyup.
    destruct (Z.eqb_spec which 13); [done|done]. }
  exists (search_tokens text). split; [done|].
  induction text as [|c text (IH1 & IH2 & IH3)]; [done|].
  rewrite search_tokens_cons. simpl. rewrite IH1, IH2, IH3.
  split; [done|]. split; [done|].
  unfold plus_for_space. destruct (Ascii.eqb c " ") eqn:Hc; [done|].
  by rewrite Hc.
Qed.

Lemma occurs_app c (a b : string) :
  occurs c (a +:+ b) = occurs c a || occurs c b.
Proof.
  induction a as [|d a IH]; [done|]. simpl. by rewrite IH, orb_assoc.
Qed.

Lemma occurs_join c (d : string) parts :
  occurs c d = false -> Forall (fun x => occurs c x = false) parts ->
  occurs c (join_with d parts) = false.
Proof.
  intros Hd. induction 1 as [|x rest Hx Hrest IH]; [done|].
  destruct rest as [|y rest]; [done|].
  rewrite join_with_cons, !occurs_app, Hx, Hd. by rewrite IH.
Qed.

(** X4: the text of the box can be read back from the query, turning every
    [+] into a space, exactly when the text had no [+] of its own. *)
Theorem search_tokens_round_trip (text : string) :
  join_with " " (split_on "+"%char (search_tokens text)) = text <->
  occurs "+"%char text = false.
Proof.
  split.
  - intros <-. apply occurs_join; [done|]. apply split_on_free.
  - intros Hfree. unfold search_tokens. rewrite split_join.
    + apply join_split.
    + apply split_on_nonempty.
    + by apply occurs_split_on.
Qed.

Lemma search_tokens_round_trip_witness :
  occurs "+"%char "dow jones" = false /\
  join_with " " (split_on "+"%char (search_tokens "dow jones")) = "dow jones".
Proof.
  assert (occurs "+"%char "dow jones" = false) as H by reflexivity.
  split; [exact H|]. exact (proj2 (search_tokens_round_trip "dow jones") H).
Defined.

End Paths.

(** * What a call never does *)

Section Growth.

Implicit Types (h : heap) (l t lit : loc) (k : string) (v : value).

Lemma store_grows_refl h : store_grows h h.
Proof. split; [done|]. intros l Hl. split; done. Qed.

Lemma store_grows_trans h1 h2 h3 :
  store_grows h1 h2 -> store_grows h2 h3 -> store_grows h1 h3.
Proof.
  intros [L12 H12] [L23 H23]. split; [lia|]. intros l Hl.
  destruct (H12 l Hl) as [C12 M12].
  destruct (H23 l ltac:(lia)) as [C23 M23].
  split; [by rewrite C23|]. intros k Hk. by apply M23, M12.
Qed.

Lemma store_grows_assign h t k v : store_grows h (assign h t k v).
Proof.
  split; [by rewrite assign_length|]. intros l Hl.
  split; [apply chain_assign|].
  intros k' Hk%has_true. by apply has_true, find_assign_mono.
Qed.

Lemma store_grows_alloc h o : store_grows h (h ++ [o]).
Proof.
  split; [rewrite length_app; lia|]. intros l Hl.
  split; [by apply chain_alloc|].
  intros k Hk. unfold has in *. by rewrite find_alloc.
Qed.

Lemma store_grows_copy_keys keys : forall h dst src,
  store_grows h (copy_keys h dst src keys).
Proof.
  induction keys as [|key keys IH]; intros h dst src;
    [apply store_grows_refl|].
  rewrite copy_keys_cons.
  eapply store_grows_trans; [apply store_grows_assign|apply IH].
Qed.

Lemma store_grows_merge_keys keys : forall h l k lit,
  store_grows h (merge_keys h l k lit keys).1.
Proof.
  induction keys as [|key keys IH]; intros h l k lit;
    [apply store_grows_refl|].
  cbn [merge_keys].
  destruct (get h l k); try apply store_grows_refl.
  eapply store_grows_trans; [apply store_grows_assign|apply IH].
Qed.

Lemma store_grows_visit h v k last lit :
  store_grows h (visit h v k last lit).1.
Proof.
  unfold visit, alloc.
  destruct v as [| | | | |l]; try apply store_grows_refl.
  destruct (get h l k) eqn:Hg, last; simpl;
    try apply store_grows_refl; try apply store_grows_assign;
    try (eapply store_grows_trans;
         [apply store_grows_alloc|apply store_grows_assign]);
    try (pose proof (store_grows_merge_keys (forin h lit) h l k lit) as Hm;
         by destruct (merge_keys h l k lit (forin h lit)) as [h' [|]]).
Qed.

Lemma store_grows_descend parts : forall h v lit,
  store_grows h (descend h v parts lit).1.
Proof.
  induction parts as [|k parts IH]; intros h v lit;
    [apply store_grows_refl|].
  cbn [descend].
  pose proof (store_grows_visit h v k
                (match parts with [] => true | _ :: _ => false end) lit) as Hv.
  destruct (visit h v k _ lit) as [h' [v'| |]]; try done.
  eapply store_grows_trans; [exact Hv|apply IH].
Qed.

Lemma store_grows_backbone_extend h parent props :
  store_grows h (backbone_extend h parent props).1.
Proof.
  unfold backbone_extend, alloc, copy_members. cbn zeta. simpl fst.
  eapply store_grows_trans; [apply store_grows_alloc|].
  eapply store_grows_trans; [apply store_grows_copy_keys|].
  eapply store_grows_trans; [apply store_grows_alloc|].
  eapply store_grows_trans; [apply store_grows_assign|].
  eapply store_grows_trans; [apply store_grows_copy_keys|].
  apply store_grows_assign.
Qed.

Lemma store_grows_extend_view h v ns :
  store_grows h (extend_view h v ns).1.
Proof.
  unfold extend_view, alloc.
  destruct v as [| | | | |t]; try apply store_grows_refl.
  destruct (get h t "View") as [| | | | |parent];
    try apply store_grows_refl; cbn zeta;
    set (o1 := plain _); set (h1 := h ++ [o1]);
    set (o2 := plain _); set (h2 := h1 ++ [o2]);
    set (o3 := plain _); set (h3 := h2 ++ [o3]);
    (assert (store_grows h h3) as H3
       by (eapply store_grows_trans; [apply store_grows_alloc|];
           eapply store_grows_trans; apply store_grows_alloc));
    destruct (callable h3 _) as [[| |]|]; try exact H3.
  pose proof (store_grows_backbone_extend h3 parent (length h2)) as Hb.
  destruct (backbone_extend h3 parent (length h2)) as [h4 child].
  simpl fst in *.
  eapply store_grows_trans; [exact H3|].
  eapply store_grows_trans; [exact Hb|apply store_grows_assign].
Qed.

(** Whatever a call of [namespace] does and however it ends, the objects of
    the store stay, each with its prototype chain and with every member it
    had. *)
Lemma store_grows_namespace (fires_on : string -> string -> bool)
    p literal (s s' : state) (r : completion value) :
  namespace fires_on p literal s = (r, s') ->
  store_grows (st_heap s) (st_heap s').
Proof.
  unfold namespace.
  assert (store_grows (st_heap s) (supplied (st_heap s) literal).1) as H0.
  { destruct literal; [apply store_grows_refl|apply store_grows_alloc]. }
  destruct (supplied (st_heap s) literal) as [h0 lit]. simpl in H0.
  pose proof (store_grows_descend (path_parts p) h0 (VRef (st_root s)) lit) as H1.
  destruct (descend _ _ _ _) as [h1 [vf| |]]; simpl in H1;
    try (intros [= <- <-]; simpl; by eapply store_grows_trans).
  pose proof (store_grows_extend_view h1 vf p) as H2.
  destruct (extend_view h1 vf p) as [h2 [t| |]] eqn:Hx; simpl in H2;
    try (intros [= <- <-]; simpl;
         eapply store_grows_trans; [exact H0|];
         by eapply store_grows_trans).
  rewrite (extend_view_key _ _ _ _ _ Hx). intros [= <- <-].
  destruct (record_and_signal_facts fires_on s h2 t (qualified p)
              (get (st_heap s) (st_root s) "pool")) as (-> & _).
  eapply store_grows_trans; [exact H0|].
  eapply store_grows_trans; [exact H1|].
  eapply store_grows_trans; [exact H2|apply store_grows_alloc].
Qed.

End Growth.

Section Calls.

Variable fires_on : string -> string -> bool.

Implicit Types (p q : string) (s : state) (v : value).

Lemma namespace_not_returned p literal s s' (r : completion value) :
  namespace fires_on p literal s = (r, s') ->
  (forall v, r ≠ Returned v) -> exists h', s' = with_heap s h'.
Proof.
  unfold namespace. destruct (supplied (st_heap s) literal) as [h0 lit].
  destruct (descend _ _ _ _) as [h1 [vf| |]] eqn:Hd.
  - destruct (extend_view h1 vf p) as [h2 [t| |]] eqn:Hx.
    + rewrite (extend_view_key _ _ _ _ _ Hx). intros [= <- <-] Hn.
      by destruct (Hn (VRef t)).
    + intros [= <- <-] _. by exists h2.
    + intros [= <- <-] _. by exists h2.
  - intros [= <- <-] _. by exists h1.
  - intros [= <- <-] _. by exists h1.
Qed.

Lemma qualified_inj p q : qualified p = qualified q -> p = q.
Proof.
  unfold qualified, rootObject.
  destruct (decide (p = "")) as [->|Hp], (decide (q = "")) as [->|Hq];
    simpl; intros H; by simplify_eq.
Qed.

(** Every outcome of a call, seen from the registry, the bus and the log. *)
Lemma namespace_effects p literal s s' (r : completion value) :
  namespace fires_on p literal s = (r, s') ->
  st_root s' = st_root s /\
  st_handlers s' = st_handlers s /\
  ((st_registry s' = st_registry s /\ st_log s' = st_log s /\
    forall v, r ≠ Returned v) \/
   (exists t, r = Returned (VRef t) /\
      st_registry s' =
        <[qualified p := length (st_heap s') - 1]> (st_registry s) /\
      get (st_heap s') (length (st_heap s') - 1) "object" = VRef t /\
      st_log s' = st_log s ++
        emitted fires_on (st_handlers s) (get (st_heap s) (st_root s) "pool")
                ("ready." +:+ qualified p) (st_heap s'))).
Proof.
  intros Hrun. destruct r as [v| |].
  - apply namespace_returned in Hrun as (h1 & t & h2 & _ & _ & -> & ->).
    destruct (record_and_signal_facts fires_on s h2 t (qualified p)
                (get (st_heap s) (st_root s) "pool"))
      as (Hheap & Hroot & Hreg & Hhs & Hlog).
    split; [done|]. split; [done|]. right. exists t. split; [done|].
    rewrite Hheap, length_app. simpl.
    replace (length h2 + 1 - 1) with (length h2) by lia.
    split; [done|]. split; [|by rewrite Hlog].
    unfold get. erewrite find_alloc_new; [done|]. apply lookup_singleton_eq.
  - destruct (namespace_not_returned _ _ _ _ _ Hrun) as [h' ->]; [done|].
    split; [done|]. split; [done|]. left. done.
  - destruct (namespace_not_returned _ _ _ _ _ Hrun) as [h' ->]; [done|].
    split; [done|]. split; [done|]. left. done.
Qed.

End Calls.

(** * Further properties of the registrar and the notifier *)




(** X7: a call of [namespace] binds and unbinds no handler, and what it adds
    to the log is one call for each of some of the bound handlers, in
    binding order and none twice, every one under the event name of its own
    path and observing the store the call leaves. *)
Theorem namespace_calls (fires_on : string -> string -> bool)
    (p : string) (literal : option loc) (s : state) :
  let s' := (namespace fires_on p literal s).2 in
  st_handlers s' = st_handlers s /\
  exists hs,
    hs `sublist_of` st_handlers s /\
    st_log s' = st_log s ++
      map (fun hd => Call (hd_callback hd) ("ready." +:+ qualified p)
                          (st_heap s')) hs.
Proof.
  destruct (namespace fires_on p literal s) as [r s'] eqn:Hrun. simpl.
  destruct (namespace_effects _ _ _ _ _ _ Hrun)
    as (_ & Hhs & [(_ & Hlog & _)|(t & _ & _ & _ & Hlog)]).
  - split; [done|]. exists []. split; [apply sublist_nil_l|].
    by rewrite Hlog, app_nil_r.
  - split; [done|]. unfold emitted in Hlog.
    destruct (get (st_heap s) (st_root s) "pool") as [| | | | |b];
      try (exists []; split; [apply sublist_nil_l|done]).
    eexists. split; [|exact Hlog]. apply sublist_filter.
Qed.

(** X8: once [namespace(p1, ...)] has returned, [ready] with the qualified
    name of [p1] runs its callback at once, and goes on doing so after any
    further call of [namespace], whatever its path and its outcome. *)
Theorem ready_stays_immediate (fires_on : string -> string -> bool)
    (p1 p2 : string) (lit1 lit2 : option loc) (s s1 : state) (v : value)
    (cb : cbid) :
  namespace fires_on p1 lit1 s = (Returned v, s1) ->
  let s2 := (namespace fires_on p2 lit2 s1).2 in
  st_log (ready (qualified p1) cb s2) =
    st_log s2 ++ [Call cb ("ready." +:+ qualified p1) (st_heap s2)] /\
  st_handlers (ready (qualified p1) cb s2) = st_handlers s2.
Proof.
  intros Hrun1.
  destruct (namespace_effects _ _ _ _ _ _ Hrun1)
    as (_ & _ & [(_ & _ & Hn)|(t & _ & Hreg1 & _)]); [by destruct (Hn v)|].
  destruct (namespace fires_on p2 lit2 s1) as [r s2] eqn:Hrun2. simpl.
  assert (is_Some (st_registry s2 !! qualified p1)) as [e He].
  { destruct (namespace_effects _ _ _ _ _ _ Hrun2)
      as (_ & _ & [(-> & _)|(t2 & _ & -> & _)]).
    - rewrite Hreg1, lookup_insert_eq. eauto.
    - destruct (decide (qualified p1 = qualified p2)) as [->|Hd].
      + rewrite lookup_insert_eq. eauto.
      + rewrite lookup_insert_ne by done.
        rewrite Hreg1, lookup_insert_eq. eauto. }
  unfold ready. by rewrite He.
Qed.

Lemma ready_stays_immediate_witness :
  let s := (literal page with_view).1 in
  let m := (literal page with_view).2 in
  let r := namespace exact_name "a" (Some m) s in
  let s2 := (namespace exact_name "b.c" None r.2).2 in
  r = (Returned (VRef m), r.2) /\
  st_log (ready (qualified "a") 8 s2) =
    st_log s2 ++ [Call 8 ("ready." +:+ qualified "a") (st_heap s2)].
Proof.
  intros s m r s2.
  assert (r = (Returned (VRef m), r.2)) as Hr by (vm_compute; reflexivity).
  split; [exact Hr|].
  exact (proj1 (ready_stays_immediate exact_name "a" "b.c" (Some m) None s r.2
                  (VRef m) 8 Hr)).
Defined.



Lemma calls_of_emitted_count (fires_on : string -> string -> bool)
    (cb : cbid) (hs : list handler) (b : loc) (name : string) (seen : heap) :
  calls_of cb (emitted fires_on hs (VRef b) name seen) =
  map (fun _ => Call cb name seen)
      (filter (fun hd => (hd_bus hd = b /\ fires_on (hd_event hd) name = true)
                         /\ hd_callback hd = cb) hs).
Proof.
  unfold calls_of, emitted, reached.
  induction hs as [|hd hs IH]; [done|].
  rewrite !filter_cons.
  destruct (decide (hd_bus hd = b /\ fires_on (hd_event hd) name = true))
    as [Hr|Hr].
  - rewrite map_cons, filter_cons. simpl c_callback.
    destruct (decide (hd_callback hd = cb)) as [Hc|Hc].
    + rewrite decide_True by done. rewrite map_cons, IH. by rewrite Hc.
    + rewrite decide_False by tauto. done.
  - rewrite decide_False by tauto. done.
Qed.

(** X10: in a returning call of [namespace], a callback is called once for
    each of its bindings on the bus that the emitted event reaches, no more
    and no less: a callback bound twice is called twice, nothing is
    deduplicated. *)
Theorem calls_match_bindings (fires_on : string -> string -> bool)
    (p : string) (literal : option loc) (s s' : state) (v : value)
    (b : loc) (cb : cbid) :
  namespace fires_on p literal s = (Returned v, s') ->
  get (st_heap s) (st_root s) "pool" = VRef b ->
  exists calls,
    st_log s' = st_log s ++ calls /\
    calls_of cb calls =
      map (fun _ => Call cb ("ready." +:+ qualified p) (st_heap s'))
          (filter (fun hd => (hd_bus hd = b /\
                              fires_on (hd_event hd)
                                       ("ready." +:+ qualified p) = true)
                             /\ hd_callback hd = cb) (st_handlers s)).
Proof.
  intros Hrun Hpool.
  destruct (namespace_effects _ _ _ _ _ _ Hrun)
    as (_ & _ & [(_ & _ & Hn)|(t & _ & _ & _ & Hlog)]); [by destruct (Hn v)|].
  rewrite Hpool in Hlog. eexists. split; [exact Hlog|].
  apply calls_of_emitted_count.
Qed.

Lemma calls_match_bindings_witness :
  let s0 := (literal page with_view).1 in
  let m := (literal page with_view).2 in
  let s := ready "bloomberg.a" 7 (ready "bloomberg.a" 7 s0) in
  let r := namespace exact_name "a" (Some m) s in
  r = (Returned (VRef m), r.2) /\
  get (st_heap s) (st_root s) "pool" = VRef 48 /\
  exists calls,
    st_log r.2 = st_log s ++ calls /\
    length (calls_of 7 calls) = 2.
Proof.
  intros s0 m s r.
  assert (r = (Returned (VRef m), r.2)) as Hr by (vm_compute; reflexivity).
  assert (get (st_heap s) (st_root s) "pool" = VRef 48) as Hp
    by (vm_compute; reflexivity).
  split; [exact Hr|]. split; [exact Hp|].
  destruct (calls_match_bindings exact_name "a" (Some m) s r.2 (VRef m) 48 7
              Hr Hp) as (calls & Hlog & Hcalls).
  exists calls. split; [exact Hlog|].
  rewrite Hcalls, length_map. vm_compute. reflexivity.
Defined.



(** * The cached views, the registry of views, the collections *)

Section Sweep.

Implicit Types (h : heap) (cached pre suf removed : list value) (v : value).

Lemma sweep_suffix h suf : forall pre tail removed,
  Forall (removable h) suf ->
  sweep h (pre ++ suf ++ tail) (length pre + length suf) removed =
  sweep h (pre ++ replicate (length suf) VNull ++ tail) (length pre)
        (removed ++ rev suf).
Proof.
  induction suf as [|v suf IH] using rev_ind; intros pre tail removed Hall.
  { simpl. by rewrite Nat.add_0_r, !app_nil_r. }
  apply Forall_app in Hall as [Hsuf Hv].
  apply Forall_singleton in Hv as [Ht Hm].
  rewrite length_app. simpl length.
  replace (length pre + (length suf + 1)) with (S (length pre + length suf))
    by lia.
  cbn [sweep].
  assert (((pre ++ (suf ++ [v]) ++ tail) = (pre ++ suf) ++ v :: tail)) as ->.
  { by rewrite <- !app_assoc. }
  assert (((pre ++ suf) ++ v :: tail) !! (length pre + length suf) = Some v)
    as Hlk.
  { rewrite lookup_app_r by (rewrite length_app; lia).
    rewrite length_app. by replace (length pre + length suf - _) with 0 by lia. }
  rewrite Hlk, Ht, Hm.
  assert (<[length pre + length suf := VNull]> ((pre ++ suf) ++ v :: tail)
          = pre ++ suf ++ VNull :: tail) as ->.
  { rewrite insert_app_r_alt by (rewrite length_app; lia).
    rewrite length_app. replace (length pre + length suf - _) with 0 by lia.
    by rewrite <- app_assoc. }
  rewrite (IH pre (VNull :: tail) (removed ++ [v]) Hsuf).
  rewrite rev_app_distr. simpl rev. rewrite <- !app_assoc. simpl.
  replace (length suf + 1) with (S (length suf)) by lia.
  rewrite replicate_S_end, <- app_assoc. done.
Qed.

(** X12: when every cached view is an object with a [remove] method, the
    loop of [View.remove] calls [remove] on each of them exactly once, the
    last one cached first, and leaves [null] in every slot. *)
Theorem remove_cached_all h cached :
  Forall (removable h) cached ->
  remove_cached h cached =
    (Returned tt, replicate (length cached) VNull, rev cached).
Proof.
  intros Hall. unfold remove_cached.
  pose proof (sweep_suffix h cached [] [] [] Hall) as Hs.
  simpl in Hs. rewrite !app_nil_r in Hs. by rewrite Hs.
Qed.

Lemma remove_cached_all_witness :
  Forall (removable removable_store) [VRef 1; VRef 1] /\
  remove_cached removable_store [VRef 1; VRef 1] =
    (Returned tt, [VNull; VNull], [VRef 1; VRef 1]).
Proof.
  assert (Forall (removable removable_store) [VRef 1; VRef 1]) as H
    by (repeat constructor).
  split; [exact H|].
  exact (remove_cached_all removable_store [VRef 1; VRef 1] H).
Defined.

(** X13: the loop stops at the last cached entry it cannot remove, silently
    when the entry is falsy (a [null] left by an earlier sweep, say),
    raising when it is truthy without a [remove] method; the views cached
    after that entry have been removed, last first, and no view cached
    before it is removed or cleared, removable or not. *)
Theorem remove_cached_stops h pre stop suf :
  ~ removable h stop ->
  Forall (removable h) suf ->
  remove_cached h (pre ++ stop :: suf) =
    (if truthy stop then Threw else Returned tt,
     pre ++ stop :: replicate (length suf) VNull, rev suf).
Proof.
  intros Hstop Hall. unfold remove_cached.
  rewrite length_app. simpl length.
  pose proof (sweep_suffix h suf (pre ++ [stop]) [] [] Hall) as Hs.
  rewrite !app_nil_r, <- !app_assoc, length_app in Hs. simpl in Hs.
  replace (length pre + S (length suf)) with (length pre + 1 + length suf)
    by lia.
  rewrite Hs. replace (length pre + 1) with (S (length pre)) by lia.
  cbn [sweep].
  rewrite lookup_app_r by lia. rewrite Nat.sub_diag. simpl.
  destruct (truthy stop) eqn:Ht; [|done].
  destruct (has_method h stop "remove") eqn:Hm; [|done].
  by destruct Hstop.
Qed.

Lemma remove_cached_stops_witness :
  ~ removable removable_store VNull /\
  remove_cached removable_store ([VRef 1] ++ VNull :: [VRef 1]) =
    (Returned tt, [VRef 1; VNull; VNull], [VRef 1]).
Proof.
  assert (~ removable removable_store VNull) as H1 by (by intros [? _]).
  assert (Forall (removable removable_store) [VRef 1]) as H2
    by (repeat constructor).
  split; [exact H1|].
  exact (remove_cached_stops removable_store [VRef 1] VNull [VRef 1] H1 H2).
Defined.

End Sweep.

Section ViewsRegistry.

Implicit Types (h : heap) (st : views_state) (v : value) (views : list value).

Lemma each_call_all h name views :
  Forall (fun v => nullish v = false) views ->
  each_call h name views =
    (map (pair name) (filter (fun v => has_method h v name = true) views), true).
Proof.
  induction 1 as [|v views Hv _ IH]; [done|].
  cbn [each_call]. rewrite IH, filter_cons.
  destruct v; try done.
  destruct (decide _) as [Hd|Hd].
  - by rewrite Hd.
  - by apply not_true_is_false in Hd as ->.
Qed.

Lemma each_call_nullish h name views :
  Exists (fun v => nullish v = true) views -> (each_call h name views).2 = false.
Proof.
  induction 1 as [v views Hv|v views _ IH].
  - by destruct v.
  - cbn [each_call]. destruct v; try done;
      (destruct (each_call h name views) as [calls ok]; simpl in *; subst ok;
       try done;
       match goal with
       | |- context [has_method ?a ?b ?c] => by destruct (has_method a b c)
       end).
Qed.

Lemma views_now_add v st :
  vs_views st < length (vs_arrays st) ->
  views_now (views_add v st) = views_now st ++ [v].
Proof.
  intros Hok. unfold views_now at 1, views_add. simpl.
  by rewrite list_lookup_insert_eq.
Qed.



(** X15: [views.destroy()] does not empty the array it has handed out.
    After a returning [destroy] the registry is empty, but the array that
    [list()] returned before still holds every view, and no longer sees
    what is added: until then [add] pushed to that very array. *)
Theorem views_destroy_resets h st :
  vs_views st < length (vs_arrays st) ->
  Forall (fun v => nullish v = false) (views_now st) ->
  let after := (views_destroy h st).2 in
  (views_destroy h st).1 = Returned tt /\
  views_now after = [] /\
  vs_arrays after !! views_list st = Some (views_now st) /\
  (forall v, vs_arrays (views_add v after) !! views_list st
             = Some (views_now st)) /\
  (forall v, vs_arrays (views_add v st) !! views_list st
             = Some (views_now st ++ [v])).
Proof.
  intros Hok Hall. unfold views_destroy. rewrite each_call_all by done.
  simpl. unfold views_list.
  assert (vs_arrays st !! vs_views st = Some (views_now st)) as Hnow.
  { unfold views_now. by destruct (lookup_lt_is_Some_2 _ _ Hok) as [a ->]. }
  split; [done|]. split.
  { unfold views_now. simpl. rewrite lookup_app_r by lia.
    by rewrite Nat.sub_diag. }
  split; [by rewrite lookup_app_l|]. split.
  - intros v. unfold views_add. simpl.
    rewrite list_lookup_insert_ne by lia. by rewrite lookup_app_l.
  - intros v. unfold views_add. simpl. by rewrite list_lookup_insert_eq.
Qed.

Lemma views_destroy_resets_witness :
  let st := views_add (VRef 1) views_start in
  vs_views st < length (vs_arrays st) /\
  views_now (views_destroy removable_store st).2 = [] /\
  vs_arrays (views_destroy removable_store st).2 !! views_list st
    = Some [VRef 1].
Proof.
  intros st.
  assert (vs_views st < length (vs_arrays st)) as H1 by (simpl; lia).
  assert (Forall (fun v => nullish v = false) (views_now st)) as H2
    by (repeat constructor).
  destruct (views_destroy_resets removable_store st H1 H2)
    as (_ & Hnow & Hold & _).
  split; [exact H1|]. split; [exact Hnow|exact Hold].
Defined.

(** X16: a [null] or [undefined] view poisons the registry.  While one is
    registered, [render] and [destroy] both raise, [destroy] without
    emptying the registry; and as [add] only appends, the entry stays
    whatever is added. *)
Theorem views_poisoned h st :
  vs_views st < length (vs_arrays st) ->
  Exists (fun v => nullish v = true) (views_now st) ->
  (views_render h st).1 = Threw /\
  (views_destroy h st).1 = Threw /\
  views_now (views_render h st).2 = views_now st /\
  views_now (views_destroy h st).2 = views_now st /\
  forall v, Exists (fun v => nullish v = true) (views_now (views_add v st)).
Proof.
  intros Hok Hnull.
  pose proof (each_call_nullish h "render" _ Hnull) as Hr.
  pose proof (each_call_nullish h "destroy" _ Hnull) as Hd.
  unfold views_render, views_destroy.
  destruct (each_call h "render" (views_now st)) as [c1 ok1].
  destruct (each_call h "destroy" (views_now st)) as [c2 ok2].
  simpl in Hr, Hd. subst ok1 ok2.
  repeat split; try done.
  intros v. rewrite views_now_add by done. apply Exists_app. by left.
Qed.

Lemma views_poisoned_witness :
  let st := views_add VUndef (views_add (VRef 1) views_start) in
  vs_views st < length (vs_arrays st) /\
  (views_render removable_store st).1 = Threw /\
  (views_destroy removable_store st).1 = Threw.
Proof.
  intros st.
  assert (vs_views st < length (vs_arrays st)) as H1 by (simpl; lia).
  assert (Exists (fun v => nullish v = true) (views_now st)) as H2
    by (right; left; done).
  destruct (views_poisoned removable_store st H1 H2) as (Hr & Hd & _).
  split; [exact H1|]. split; [exact Hr|exact Hd].
Defined.

End ViewsRegistry.

Section Collections.

Implicit Types (h : heap) (l t : loc) (k : string) (v : value).

Lemma find_alloc3 h o1 o2 o3 l k :
  l < length h -> find (((h ++ [o1]) ++ [o2]) ++ [o3]) l k = find h l k.
Proof.
  intros Hl. rewrite !find_alloc; [done|..]; rewrite ?length_app; simpl; lia.
Qed.



End Collections.


